(** * atriusNextJS: the SDK handle cache and the API route handlers

    A shallow embedding of [src/lib/mapService.js] and of the five route
    handlers ([app/api/pois], [app/api/venue], [app/api/search],
    [app/api/structures], [app/api/poi/[id]]), with the JavaScript built-ins
    they use ([Array.isArray], [typeof], truthiness, [Object.values],
    [parseInt], [isNaN], property reads), followed by the properties of the
    specification that concern them.

    Conventions of the embedding.
    - A JavaScript string is a [string]: a sequence of code units below 256.
    - A number is modelled by [Number]: the integer-valued doubles, the two
      infinities, negative zero and NaN.  Payload numbers are never inspected
      by the handlers.
    - An object is the list of its own enumerable string-keyed properties in
      the order in which they were created (keys pairwise distinct).
    - The outcome of an external call is given by an SDK oracle that may
      depend on every call made before.  [getMapInstance] and the handlers
      are first embedded as whole runs, from call to return; module
      [Interleaved] splits them at their [await]s on the SDK, where other
      runs may take their turn.  Console output is not recorded; reading the
      arguments of a console call is. *)

From Stdlib Require Import ZArith List String Ascii Bool Lia Permutation Sorted.
Import ListNotations.
Open Scope string_scope.
Open Scope Z_scope.

(** ** JavaScript values *)

Module JS.

Inductive Number :=
| NaN
| NegZero
| Infinity (negative : bool)
| Int (z : Z).

#[warnings="-register-all"]
Inductive JsVal :=
| JUndefined
| JNull
| JBool (b : bool)
| JNum (n : Number)
| JStr (s : string)
| JArr (elems : list JsVal)
| JObj (props : list (string * JsVal))
| JError (name message stack : string).

(** Abrupt and normal completion of an evaluation. *)
Inductive Completion (A : Type) :=
| Normal (a : A)
| Throw (e : JsVal).
Arguments Normal {A} a.
Arguments Throw {A} e.

(** ToBoolean. *)
Definition truthy (v : JsVal) : bool :=
  match v with
  | JUndefined | JNull => false
  | JBool b => b
  | JNum NaN | JNum NegZero => false
  | JNum (Int z) => negb (z =? 0)
  | JNum (Infinity _) => true
  | JStr s => negb (s =? "")%string
  | JArr _ | JObj _ | JError _ _ _ => true
  end.

Definition typeof (v : JsVal) : string :=
  match v with
  | JUndefined => "undefined"
  | JNull => "object"
  | JBool _ => "boolean"
  | JNum _ => "number"
  | JStr _ => "string"
  | JArr _ | JObj _ | JError _ _ _ => "object"
  end.

Definition isArray (v : JsVal) : bool :=
  match v with JArr _ => true | _ => false end.

Definition nullish (v : JsVal) : bool :=
  match v with JUndefined | JNull => true | _ => false end.

(** The TypeError of a property read on [null] or [undefined]. *)
Definition read_of_nullish (v : JsVal) (prop : string) : JsVal :=
  let what := match v with JNull => "null" | _ => "undefined" end in
  let msg := "Cannot read properties of " ++ what ++ " (reading '" ++ prop ++ "')" in
  JError "TypeError" msg ("TypeError: " ++ msg).

Fixpoint lookup (key : string) (props : list (string * JsVal)) : option JsVal :=
  match props with
  | [] => None
  | (k, v) :: rest => if (k =? key)%string then Some v else lookup key rest
  end.

(** [v.prop] for a property name that no built-in prototype defines
    ([message] and [stack] on a caught value). *)
Definition get_prop (v : JsVal) (prop : string) : Completion JsVal :=
  match v with
  | JUndefined | JNull => Throw (read_of_nullish v prop)
  | JObj props =>
      Normal (match lookup prop props with Some x => x | None => JUndefined end)
  | JError name message stack =>
      Normal (if (prop =? "message")%string then JStr message
              else if (prop =? "stack")%string then JStr stack
              else if (prop =? "name")%string then JStr name
              else JUndefined)
  | _ => Normal JUndefined
  end.

(** *** Decimal digits *)

Definition is_digit (c : ascii) : bool :=
  ((48 <=? N_of_ascii c) && (N_of_ascii c <=? 57))%N.

Definition digit_value (c : ascii) : Z := Z.of_N (N_of_ascii c) - 48.

Fixpoint all_digits (s : string) : bool :=
  match s with
  | EmptyString => true
  | String c rest => is_digit c && all_digits rest
  end.

Fixpoint digits_value (acc : Z) (s : string) : Z :=
  match s with
  | EmptyString => acc
  | String c rest => digits_value (10 * acc + digit_value c) rest
  end.

(** *** Own property order and [Object.values] *)

(** An array index is a canonical numeric string below 2^32 - 1. *)
Definition array_index (key : string) : option Z :=
  match key with
  | EmptyString => None
  | String c rest =>
      if all_digits key && (negb (Ascii.eqb c "0") || (rest =? "")%string) then
        let v := digits_value 0 key in
        if v <? 2 ^ 32 - 1 then Some v else None
      else None
  end.

Definition Property : Type := string * JsVal.

Fixpoint insert_index (i : Z) (p : Property) (sorted : list (Z * Property))
  : list (Z * Property) :=
  match sorted with
  | [] => [(i, p)]
  | (j, q) :: rest =>
      if i <=? j then (i, p) :: sorted else (j, q) :: insert_index i p rest
  end.

(** The properties whose key is an array index, in ascending index order. *)
Fixpoint index_properties (props : list Property) : list (Z * Property) :=
  match props with
  | [] => []
  | p :: rest =>
      match array_index (fst p) with
      | Some i => insert_index i p (index_properties rest)
      | None => index_properties rest
      end
  end.

(** The other properties, in creation order. *)
Definition named_properties (props : list Property) : list Property :=
  filter (fun p => match array_index (fst p) with Some _ => false | None => true end)
         props.

(** OrdinaryOwnPropertyKeys: array indices ascending, then the other keys in
    creation order. *)
Definition own_properties (props : list Property) : list Property :=
  map snd (index_properties props) ++ named_properties props.

(** [Object.values(v)]; it throws on [null] and [undefined]. *)
Definition Object_values (v : JsVal) : Completion JsVal :=
  match v with
  | JUndefined | JNull =>
      Throw (JError "TypeError" "Cannot convert undefined or null to object"
                    "TypeError: Cannot convert undefined or null to object")
  | JObj props => Normal (JArr (map snd (own_properties props)))
  | JArr elems => Normal (JArr elems)
  | JStr s => Normal (JArr (map (fun c => JStr (String c EmptyString)) (list_ascii_of_string s)))
  | JBool _ | JNum _ | JError _ _ _ => Normal (JArr [])
  end.

(** [arr.length] of an array value. *)
Definition length_of (v : JsVal) : JsVal :=
  match v with
  | JArr elems => JNum (Int (Z.of_nat (List.length elems)))
  | _ => JUndefined
  end.

(** *** [parseInt(s, 10)] and [isNaN] *)

(** WhiteSpace and LineTerminator code units below 256. *)
Definition is_whitespace (c : ascii) : bool :=
  let n := N_of_ascii c in
  ((n =? 9) || (n =? 10) || (n =? 11) || (n =? 12) || (n =? 13)
   || (n =? 32) || (n =? 160))%N.

Fixpoint trim_start (s : string) : string :=
  match s with
  | String c rest => if is_whitespace c then trim_start rest else s
  | EmptyString => s
  end.

(** The longest prefix of decimal digits. *)
Fixpoint digit_prefix (s : string) : string :=
  match s with
  | String c rest => if is_digit c then String c (digit_prefix rest) else EmptyString
  | EmptyString => EmptyString
  end.

(** The double nearest to a non-negative integer (ties to even), [None] when
    it overflows to infinity. *)
Definition nearest_double (n : Z) : option Z :=
  let bits := Z.log2 n + 1 in
  if bits <=? 53 then Some n
  else
    let e := bits - 53 in
    let q := Z.shiftr n e in
    let r := Z.land n (Z.ones e) in
    let half := Z.shiftl 1 (e - 1) in
    let q' := if (half <? r) || ((r =? half) && Z.odd q) then q + 1 else q in
    let v := Z.shiftl q' e in
    if 2 ^ 1024 <=? v then None else Some v.

(** The Number value of [sign * mathInt]. *)
Definition to_number (negative : bool) (mathInt : Z) : Number :=
  if mathInt =? 0 then (if negative then NegZero else Int 0)
  else match nearest_double mathInt with
       | Some v => Int (if negative then - v else v)
       | None => Infinity negative
       end.

Definition parseInt10 (input : string) : Number :=
  let s := trim_start input in
  let negative := match s with String "-" _ => true | _ => false end in
  let s := match s with
           | String "+" rest | String "-" rest => rest
           | _ => s
           end in
  let z := digit_prefix s in
  match z with
  | EmptyString => NaN
  | _ => to_number negative (digits_value 0 z)
  end.

Definition isNaN (n : Number) : bool :=
  match n with NaN => true | _ => false end.

End JS.
Export JS.

(** ** The process: module state, the SDK, sequential evaluation *)

Module Runtime.

(** The calls this system makes to the mapping SDK. *)
Inductive SdkCall :=
| NewMap (config : JsVal)
| GetAllPOIs (map : JsVal)
| GetVenueData (map : JsVal)
| Search (map : JsVal) (query : string)
| GetStructures (map : JsVal)
| GetPOIDetails (map : JsVal) (poiId : Number).

(** How an awaited call settles. *)
Inductive Outcome :=
| Resolve (v : JsVal)
| Reject (e : JsVal).

(** The SDK: the outcome of a call, given the calls made so far (most recent
    first). *)
Definition Sdk : Type := list SdkCall -> SdkCall -> Outcome.

Record ProcessEnv := {
  ATRIUSMAPS_ACCOUNT_ID : option string;
  ATRIUSMAPS_VENUE_ID : option string
}.

(** [mapInstance] is the module-level variable of [mapService.js]. *)
Record World := {
  mapInstance : JsVal;
  calls : list SdkCall;
  env : ProcessEnv
}.

Definition initial (e : ProcessEnv) : World :=
  {| mapInstance := JNull; calls := []; env := e |}.

Definition M (A : Type) : Type := World -> Completion A * World.

Definition ret {A} (a : A) : M A := fun w => (Normal a, w).

Definition throw {A} (e : JsVal) : M A := fun w => (Throw e, w).

Definition bind {A B} (m : M A) (k : A -> M B) : M B :=
  fun w =>
    match m w with
    | (Normal a, w') => k a w'
    | (Throw e, w') => (Throw e, w')
    end.

Definition try_catch {A} (body : M A) (handler : JsVal -> M A) : M A :=
  fun w =>
    match body w with
    | (Normal a, w') => (Normal a, w')
    | (Throw e, w') => handler e w'
    end.

Definition lift {A} (c : Completion A) : M A := fun w => (c, w).

Definition get_mapInstance : M JsVal := fun w => (Normal (mapInstance w), w).

Definition set_mapInstance (v : JsVal) : M unit :=
  fun w => (Normal tt, {| mapInstance := v; calls := calls w; env := env w |}).

Definition process_env : M ProcessEnv := fun w => (Normal (env w), w).

(** The world once call [c] has been made. *)
Definition record (c : SdkCall) (w : World) : World :=
  {| mapInstance := mapInstance w; calls := c :: calls w; env := env w |}.

Definition env_value (o : option string) : JsVal :=
  match o with Some s => JStr s | None => JUndefined end.

Definition is_NewMap (c : SdkCall) : bool :=
  match c with NewMap _ => true | _ => false end.

(** How many times the SDK constructor has been invoked. *)
Definition constructions (w : World) : nat :=
  List.length (filter is_NewMap (calls w)).

Module Notations.
  Notation "x <- m ;; k" := (bind m (fun x => k))
    (at level 61, m at next level, right associativity).
  Notation "m ;;; k" := (bind m (fun _ => k))
    (at level 61, right associativity).
End Notations.

End Runtime.
Export Runtime.
Import Runtime.Notations.

Section Program.

Variable sdk : Sdk.

(** [await c]: the call is made and its outcome awaited. *)
Definition await (c : SdkCall) : M JsVal :=
  fun w =>
    match sdk (calls w) c with
    | Resolve v => (Normal v, record c w)
    | Reject e => (Throw e, record c w)
    end.

(** [await map.name(...)]: reading the method of [null] or [undefined]
    throws; otherwise the call goes to the SDK. *)
Definition call_method (map : JsVal) (name : string) (c : SdkCall) : M JsVal :=
  if nullish map then throw (read_of_nullish map name) else await c.

(** *** src/lib/mapService.js *)

Definition config (e : ProcessEnv) : JsVal :=
  JObj [("accountId", env_value (ATRIUSMAPS_ACCOUNT_ID e));
        ("venueId", env_value (ATRIUSMAPS_VENUE_ID e))].

(** The world once a construction has resolved with [v]: the call is made
    and [v] is assigned to [mapInstance]. *)
Definition constructed (v : JsVal) (w : World) : World :=
  {| mapInstance := v; calls := NewMap (config (env w)) :: calls w; env := env w |}.

Definition getMapInstance : M JsVal :=
  cached <- get_mapInstance ;;
  if truthy cached then ret cached
  else
    e <- process_env ;;
    try_catch
      (created <- await (NewMap (config e)) ;;
       set_mapInstance created ;;;
       get_mapInstance)
      (fun error => throw error).

(** *** The route handlers *)

Record Response := {
  status : Z;
  body : JsVal
}.

(** [NextResponse.json(body)] and [NextResponse.json(body, { status })]. *)
Definition json (b : JsVal) : Response := {| status := 200; body := b |}.
Definition json_status (b : JsVal) (s : Z) : Response := {| status := s; body := b |}.

(** app/api/pois/route.js *)
Definition poisArray_of (pois : JsVal) : M JsVal :=
  if isArray pois then ret pois
  else if truthy pois && (typeof pois =? "object")%string then lift (Object_values pois)
  else ret (JArr []).

Definition GET_pois : M Response :=
  try_catch
    (map <- getMapInstance ;;
     pois <- call_method map "getAllPOIs" (GetAllPOIs map) ;;
     poisArray <- poisArray_of pois ;;
     ret (json (JObj [("success", JBool true);
                      ("data", poisArray);
                      ("count", length_of poisArray)])))
    (fun error =>
       _ <- lift (get_prop error "stack") ;;
       message <- lift (get_prop error "message") ;;
       ret (json_status (JObj [("success", JBool false);
                               ("error", JStr "Failed to fetch POIs");
                               ("message", message)]) 500)).

(** app/api/venue/route.js *)
Definition GET_venue : M Response :=
  try_catch
    (map <- getMapInstance ;;
     venueData <- call_method map "getVenueData" (GetVenueData map) ;;
     ret (json (JObj [("success", JBool true); ("data", venueData)])))
    (fun error =>
       message <- lift (get_prop error "message") ;;
       ret (json_status (JObj [("success", JBool false); ("error", message)]) 500)).

(** app/api/search/route.js; [q] is [searchParams.get('q')], [None] for
    [null]. *)
Definition resultsArray_of (results : JsVal) : M JsVal :=
  if isArray results then ret results
  else if truthy results && (typeof results =? "object")%string then lift (Object_values results)
  else ret (JArr []).

(** The text [Query parameter "q" is required]. *)
Definition q_is_required : string :=
  "Query parameter " ++ String "034"%char "q" ++ String "034"%char " is required".

Definition query_value (q : option string) : JsVal :=
  match q with Some s => JStr s | None => JNull end.

Definition GET_search (q : option string) : M Response :=
  let query := query_value q in
  if negb (truthy query) then
    ret (json_status (JObj [("success", JBool false);
                            ("error", JStr q_is_required)]) 400)
  else
    try_catch
      (map <- getMapInstance ;;
       results <- call_method map "search"
                    (Search map (match q with Some s => s | None => "" end)) ;;
       resultsArray <- resultsArray_of results ;;
       ret (json (JObj [("success", JBool true);
                        ("data", resultsArray);
                        ("count", length_of resultsArray);
                        ("query", query)])))
      (fun error =>
         message <- lift (get_prop error "message") ;;
         ret (json_status (JObj [("success", JBool false); ("error", message)]) 500)).

(** app/api/structures/route.js *)
Definition structuresArray_of (structures : JsVal) : M JsVal :=
  if isArray structures then ret structures
  else if truthy structures && (typeof structures =? "object")%string
       then lift (Object_values structures)
  else ret (JArr []).

Definition GET_structures : M Response :=
  try_catch
    (map <- getMapInstance ;;
     structures <- call_method map "getStructures" (GetStructures map) ;;
     structuresArray <- structuresArray_of structures ;;
     ret (json (JObj [("success", JBool true);
                      ("data", structuresArray);
                      ("count", length_of structuresArray)])))
    (fun error =>
       message <- lift (get_prop error "message") ;;
       ret (json_status (JObj [("success", JBool false); ("error", message)]) 500)).

(** app/api/poi/[id]/route.js; [id] is the path parameter. *)
Definition GET_poi (id : string) : M Response :=
  try_catch
    (let poiId := parseInt10 id in
     if isNaN poiId then
       ret (json_status (JObj [("success", JBool false);
                               ("error", JStr "Invalid POI ID - must be a number")]) 400)
     else
       map <- getMapInstance ;;
       poi <- call_method map "getPOIDetails" (GetPOIDetails map poiId) ;;
       ret (json (JObj [("success", JBool true); ("data", poi)])))
    (fun error =>
       message <- lift (get_prop error "message") ;;
       ret (json_status (JObj [("success", JBool false); ("error", message)]) 500)).

(** *** Requests and runs of the process *)

Inductive Request :=
| ListPois
| VenueData
| SearchFor (q : option string)
| ListStructures
| PoiDetail (id : string).

Definition GET (r : Request) : M Response :=
  match r with
  | ListPois => GET_pois
  | VenueData => GET_venue
  | SearchFor q => GET_search q
  | ListStructures => GET_structures
  | PoiDetail id => GET_poi id
  end.

(** What runs in the process: a route handler, or a direct call of
    [getMapInstance].  [after] is one whole run and [after_all] runs that
    follow one another, each complete before the next starts. *)
Inductive Activity :=
| Serve (r : Request)
| GetHandle.

Definition after (a : Activity) (w : World) : World :=
  match a with
  | Serve r => snd (GET r w)
  | GetHandle => snd (getMapInstance w)
  end.

Definition after_all (acts : list Activity) (w : World) : World :=
  fold_left (fun w a => after a w) acts w.

End Program.

Arguments status : clear implicits.
Arguments body : clear implicits.

(** ** The statements of the specification *)

Module Spec.

(** A field of a response envelope. *)
Definition field (name : string) (envelope : JsVal) : option JsVal :=
  match envelope with
  | JObj props => lookup name props
  | _ => None
  end.

(** The envelope invariant: a success carries no [error], a failure no
    [data]. *)
Definition envelope_ok (envelope : JsVal) : Prop :=
  (field "success" envelope = Some (JBool true) -> field "error" envelope = None) /\
  (field "success" envelope = Some (JBool false) -> field "data" envelope = None).

(** The normalization rule: an array is kept, an object gives its values in
    own-property order, anything else gives the empty array. *)
Definition normalize (raw : JsVal) : JsVal :=
  match raw with
  | JArr elems => JArr elems
  | JObj props => JArr (map snd (own_properties props))
  | _ => JArr []
  end.

Definition is_object (v : JsVal) : bool :=
  match v with
  | JArr _ | JObj _ | JError _ _ _ => true
  | _ => false
  end.

(** The rule with the values of an object taken in insertion order. *)
Definition normalize_insertion_order (raw : JsVal) : JsVal :=
  match raw with
  | JArr elems => JArr elems
  | JObj props => JArr (map snd props)
  | _ => JArr []
  end.

(** [p] may precede [q] in own-property order. *)
Definition key_order (p q : Property) : Prop :=
  match array_index (fst p), array_index (fst q) with
  | Some i, Some j => i < j
  | Some _, None => True
  | None, Some _ => False
  | None, None => True
  end.

Fixpoint all_whitespace (s : string) : bool :=
  match s with
  | EmptyString => true
  | String c rest => is_whitespace c && all_whitespace rest
  end.

Definition starts_with_digit (s : string) : bool :=
  match s with
  | String c _ => is_digit c
  | EmptyString => false
  end.

(** [id] is white space, an optional sign, the decimal digits [digits], and
    a remainder that does not continue the digits. *)
Definition integer_prefix (id : string) (negative : bool) (digits : string) : Prop :=
  exists ws sign rest,
    id = ws ++ sign ++ digits ++ rest /\
    all_whitespace ws = true /\
    (sign = "" /\ negative = false \/ sign = "+" /\ negative = false
     \/ sign = "-" /\ negative = true) /\
    digits <> "" /\ all_digits digits = true /\
    starts_with_digit rest = false.

(** [id] parses as a base-10 integer. *)
Definition parseable (id : string) : Prop :=
  exists negative digits, integer_prefix id negative digits.

(** The value of a sign and of the digits that start [s]: what [parseInt10]
    returns once white space and sign are removed. *)
Definition parse_signed (negative : bool) (s : string) : Number :=
  let z := digit_prefix s in
  match z with
  | EmptyString => NaN
  | _ => to_number negative (digits_value 0 z)
  end.

Definition is_list_route (r : Request) : bool :=
  match r with
  | ListPois | SearchFor _ | ListStructures => true
  | VenueData | PoiDetail _ => false
  end.

(** The envelopes of the routes. *)
Definition list_envelope (raw : JsVal) : JsVal :=
  JObj [("success", JBool true);
        ("data", normalize raw);
        ("count", length_of (normalize raw))].

Definition search_envelope (q : string) (raw : JsVal) : JsVal :=
  JObj [("success", JBool true);
        ("data", normalize raw);
        ("count", length_of (normalize raw));
        ("query", JStr q)].

Definition object_envelope (raw : JsVal) : JsVal :=
  JObj [("success", JBool true); ("data", raw)].

Definition error_envelope (message : JsVal) : JsVal :=
  JObj [("success", JBool false); ("error", message)].

Definition pois_error_envelope (message : JsVal) : JsVal :=
  JObj [("success", JBool false);
        ("error", JStr "Failed to fetch POIs");
        ("message", message)].

Definition invalid_id : Response :=
  {| status := 400;
     body := JObj [("success", JBool false);
                   ("error", JStr "Invalid POI ID - must be a number")] |}.

Definition missing_query : Response :=
  {| status := 400;
     body := JObj [("success", JBool false); ("error", JStr q_is_required)] |}.

Section Protocol.

Variable sdk : Sdk.

(** The protocol of every route: obtain the handle, invoke one capability
    of the SDK on it, wrap the result. *)
Definition fetch (name : string) (capability : JsVal -> SdkCall)
    (envelope : JsVal -> JsVal) : M Response :=
  map <- getMapInstance sdk ;;
  result <- call_method sdk map name (capability map) ;;
  ret (json (envelope result)).

(** The catch clause: a server error with the message of the caught value. *)
Definition report (envelope : JsVal -> JsVal) (error : JsVal) : M Response :=
  message <- lift (get_prop error "message") ;;
  ret (json_status (envelope message) 500).

(** The capability of the SDK that serves a request. *)
Definition method_name (r : Request) : string :=
  match r with
  | ListPois => "getAllPOIs"
  | VenueData => "getVenueData"
  | SearchFor _ => "search"
  | ListStructures => "getStructures"
  | PoiDetail _ => "getPOIDetails"
  end.

Definition capability (r : Request) (map : JsVal) : SdkCall :=
  match r with
  | ListPois => GetAllPOIs map
  | VenueData => GetVenueData map
  | SearchFor q => Search map (match q with Some s => s | None => "" end)
  | ListStructures => GetStructures map
  | PoiDetail id => GetPOIDetails map (parseInt10 id)
  end.

Definition success_envelope (r : Request) (raw : JsVal) : JsVal :=
  match r with
  | ListPois | ListStructures => list_envelope raw
  | SearchFor q => search_envelope (match q with Some s => s | None => "" end) raw
  | VenueData | PoiDetail _ => object_envelope raw
  end.

Definition failure_envelope (r : Request) (message : JsVal) : JsVal :=
  match r with
  | ListPois => pois_error_envelope message
  | _ => error_envelope message
  end.

(** The try block of a request that passed validation, and its catch
    clause. *)
Definition attempt (r : Request) : M Response :=
  fetch (method_name r) (capability r) (success_envelope r).

Definition recover (r : Request) (error : JsVal) : M Response :=
  match r with
  | ListPois => _ <- lift (get_prop error "stack") ;; report pois_error_envelope error
  | _ => report error_envelope error
  end.

(** Whether the request passes the validation of its route. *)
Definition valid (r : Request) : bool :=
  match r with
  | SearchFor q => truthy (query_value q)
  | PoiDetail id => negb (isNaN (parseInt10 id))
  | _ => true
  end.

Definition rejection (r : Request) : Response :=
  match r with
  | PoiDetail _ => invalid_id
  | _ => missing_query
  end.

(** The outcomes of a handler. *)
Inductive Outcome_of (r : Request) (w : World) : Completion Response -> World -> Prop :=
| rejected :
    valid r = false ->
    Outcome_of r w (Normal (rejection r)) w
| served h w1 x :
    valid r = true ->
    getMapInstance sdk w = (Normal h, w1) -> nullish h = false ->
    sdk (calls w1) (capability r h) = Resolve x ->
    Outcome_of r w (Normal (json (success_envelope r x))) (record (capability r h) w1)
| capability_failed h w1 e result :
    valid r = true ->
    getMapInstance sdk w = (Normal h, w1) -> nullish h = false ->
    sdk (calls w1) (capability r h) = Reject e ->
    recover r e (record (capability r h) w1) = (result, record (capability r h) w1) ->
    Outcome_of r w result (record (capability r h) w1)
| no_handle h w1 result :
    valid r = true ->
    getMapInstance sdk w = (Normal h, w1) -> nullish h = true ->
    recover r (read_of_nullish h (method_name r)) w1 = (result, w1) ->
    Outcome_of r w result w1
| construction_failed e w1 result :
    valid r = true ->
    getMapInstance sdk w = (Throw e, w1) ->
    recover r e w1 = (result, w1) ->
    Outcome_of r w result w1.

End Protocol.

End Spec.
Export Spec.

(** ** Sample processes *)

Module Samples.

Definition process : World :=
  initial {| ATRIUSMAPS_ACCOUNT_ID := Some "account"; ATRIUSMAPS_VENUE_ID := Some "venue" |}.

Definition handle : JsVal := JObj [("venue", JStr "venue")].

Definition poi (id : Z) : JsVal := JObj [("id", JNum (Int id))].

(** Every construction succeeds; the backend has three POIs and no search
    hit. *)
Definition sdk_up : Sdk :=
  fun _ c =>
    match c with
    | NewMap _ => Resolve handle
    | GetAllPOIs _ => Resolve (JArr [poi 1; poi 2; poi 3])
    | GetVenueData _ => Resolve (JObj [("name", JStr "venue")])
    | Search _ _ => Resolve (JObj [])
    | GetStructures _ => Resolve (JObj [("0", poi 7); ("1", poi 8)])
    | GetPOIDetails _ n => Resolve (JObj [("id", JNum n)])
    end.

Definition unreachable : JsVal :=
  JError "Error" "backend unreachable" "Error: backend unreachable".

(** Every call is rejected. *)
Definition sdk_down : Sdk := fun _ _ => Reject unreachable.

(** The first construction fails, the later ones succeed. *)
Definition sdk_recovering : Sdk :=
  fun earlier c =>
    match c with
    | NewMap _ =>
        if existsb is_NewMap earlier then Resolve handle else Reject unreachable
    | _ => Resolve (JArr [])
    end.

(** The first construction resolves with [null], the later ones with a
    handle. *)
Definition sdk_null_first : Sdk :=
  fun earlier c =>
    match c with
    | NewMap _ =>
        if existsb is_NewMap earlier then Resolve handle else Resolve JNull
    | _ => Resolve (JArr [])
    end.

(** Every construction resolves with [undefined]. *)
Definition sdk_no_handle : Sdk :=
  fun _ c =>
    match c with
    | NewMap _ => Resolve JUndefined
    | _ => Resolve (JArr [])
    end.

(** [getAllPOIs] is rejected with [null]. *)
Definition sdk_rejecting_null : Sdk :=
  fun _ c =>
    match c with
    | NewMap _ => Resolve handle
    | _ => Reject JNull
    end.

End Samples.

(** ** The process over its lifetime *)

Module Lifetime.

(** How many constructions in a history resolved with a truthy handle; the
    outcome of a call is what the SDK answered given the calls before it. *)
Fixpoint truthy_constructions (sdk : Sdk) (history : list SdkCall) : nat :=
  match history with
  | [] => 0%nat
  | c :: earlier =>
      (match c, sdk earlier c with
       | NewMap _, Resolve v => if truthy v then 1%nat else 0%nat
       | _, _ => 0%nat
       end + truthy_constructions sdk earlier)%nat
  end.

(** The property read in the catch clause that throws on [null] and
    [undefined]: [error.stack] for the POI list, [error.message] for the
    other routes. *)
Definition first_read (r : Request) : string :=
  match r with
  | ListPois => "stack"
  | _ => "message"
  end.

(** What holds of a process started with environment [e] after runs that
    follow one another, each complete before the next starts. *)
Definition process_invariant (sdk : Sdk) (e : ProcessEnv) (w : World) : Prop :=
  env w = e /\
  (forall c, In c (calls w) -> is_NewMap c = true -> c = NewMap (config e)) /\
  truthy_constructions sdk (calls w) = (if truthy (mapInstance w) then 1%nat else 0%nat) /\
  (mapInstance w = JNull \/
   exists later earlier,
     calls w = (later ++ NewMap (config e) :: earlier)%list /\
     sdk earlier (NewMap (config e)) = Resolve (mapInstance w)).

End Lifetime.
Export Lifetime.

(** ** The response on the wire *)

Module Wire.


End Wire.
Export Wire.

(** ** src/app/page.js *)

Module Page.

(** The state of [Home]: [useState([])], [useState(true)],
    [useState(null)].  [setPois] is only ever given an array. *)
Record State := {
  pois : list JsVal;
  loading : bool;
  error : JsVal
}.

Definition mounted : State := {| pois := []; loading := true; error := JNull |}.

Definition setPois (items : list JsVal) (s : State) : State :=
  {| pois := items; loading := loading s; error := error s |}.

Definition setLoading (b : bool) (s : State) : State :=
  {| pois := pois s; loading := b; error := error s |}.

Definition setError (e : JsVal) (s : State) : State :=
  {| pois := pois s; loading := loading s; error := e |}.

(** How [fetch('/api/pois')] followed by [response.json()] settles. *)
Inductive Fetched :=
| FetchRejected (err : JsVal)
| JsonRejected (err : JsVal)
| Body (data : JsVal).

(** [a || b]. *)
Definition or_else (a b : JsVal) : JsVal := if truthy a then a else b.

(** The state while the request is awaited. *)
Definition pending (s : State) : State := setError JNull (setLoading true s).

(** The try block of [fetchPOIs], from the first [await] on. *)
Definition fetch_try (result : Fetched) (s : State) : Completion unit * State :=
  match result with
  | FetchRejected err | JsonRejected err => (Throw err, s)
  | Body data =>
      match get_prop data "success" with
      | Throw t => (Throw t, s)
      | Normal success =>
          if truthy success then
            match get_prop data "data" with
            | Throw t => (Throw t, s)
            | Normal d =>
                let poisArray := match d with JArr items => items | _ => [] end in
                (Normal tt, setPois poisArray s)
            end
          else
            match get_prop data "error" with
            | Throw t => (Throw t, s)
            | Normal e => (Normal tt, setError (or_else e (JStr "Failed to fetch POIs")) s)
            end
      end
  end.

(** The state once [fetchPOIs] has completed. *)
Definition fetchPOIs (result : Fetched) (s : State) : State :=
  let s1 := pending s in
  let s2 := match fetch_try result s1 with
            | (Normal _, s') => s'
            | (Throw err, s') => setError (JStr "Network error: Failed to fetch POIs") s'
            end in
  setLoading false s2.

(** The value of [v && <element showing v>]. *)
Inductive Slot :=
| Shown (v : JsVal)
| Left_out (falsy : JsVal).

Definition and_shown (v : JsVal) : Slot := if truthy v then Shown v else Left_out v.

Record Card := {
  key : JsVal;
  title : JsVal;
  type_line : Slot;
  description_line : Slot;
  id_line : Slot
}.

(** The element of one item.  The JSX runs under the automatic runtime,
    which builds the props of an element, its children included, before its
    key: [poi.name] is read first and the key [poi.id || index] last. *)
Definition card (poi : JsVal) (index : nat) : Completion Card :=
  match get_prop poi "name", get_prop poi "type", get_prop poi "description",
        get_prop poi "id" with
  | Normal name, Normal type, Normal description, Normal id =>
      match get_prop poi "id" with
      | Normal key_id =>
          Normal {| key := or_else key_id (JNum (Int (Z.of_nat index)));
                    title := or_else name (JStr "Unnamed POI");
                    type_line := and_shown type;
                    description_line := and_shown description;
                    id_line := and_shown id |}
      | Throw t => Throw t
      end
  | Throw t, _, _, _ => Throw t
  | _, Throw t, _, _ => Throw t
  | _, _, Throw t, _ => Throw t
  | _, _, _, Throw t => Throw t
  end.

(** [pois.map((poi, index) => ...)], from [index] on. *)
Fixpoint cards (index : nat) (items : list JsVal) : Completion (list Card) :=
  match items with
  | [] => Normal []
  | poi :: rest =>
      match card poi index with
      | Throw t => Throw t
      | Normal c =>
          match cards (S index) rest with
          | Throw t => Throw t
          | Normal cs => Normal (c :: cs)
          end
      end
  end.

Inductive View :=
| Loading
| Failed (message : JsVal)
| Empty
| Listing (total : nat) (shown : list Card).

(** What [Home] returns for a state. *)
Definition render (s : State) : Completion View :=
  if loading s then Normal Loading
  else if truthy (error s) then Normal (Failed (error s))
  else if (List.length (pois s) =? 0)%nat then Normal Empty
  else match cards 0 (pois s) with
       | Throw t => Throw t
       | Normal cs => Normal (Listing (List.length (pois s)) cs)
       end.

(** Whether the fetch delivered a body whose [success] is truthy. *)
Definition succeeded (result : Fetched) : bool :=
  match result with
  | Body data =>
      match get_prop data "success" with
      | Normal success => truthy success
      | Throw _ => false
      end
  | _ => false
  end.

(** The message the page reports for a fetch that did not succeed. *)
Definition failure_message (result : Fetched) : JsVal :=
  match result with
  | Body data =>
      match get_prop data "error" with
      | Normal e => or_else e (JStr "Failed to fetch POIs")
      | Throw _ => JStr "Network error: Failed to fetch POIs"
      end
  | _ => JStr "Network error: Failed to fetch POIs"
  end.

End Page.

(** ** Runs that overlap *)

Module Interleaved.

(** A run suspended at an [await] on the SDK, with the outcome it waits
    for: inside [getMapInstance] at [await Init.newMap(config)], on behalf of
    [who]; or in the handler of [r] at [await map.method(...)]. *)
Inductive Task :=
| Constructing (who : Activity) (o : Outcome)
| Calling (r : Request) (o : Outcome).

(** What has completed: a call of [getMapInstance], made directly or by a
    handler, and a handler. *)
Inductive Finished :=
| Handle_returned (got : Completion JsVal)
| Responded (r : Request) (response : Completion Response).

Record Process := {
  world : World;
  tasks : list Task;
  log : list Finished
}.

Definition boot (e : ProcessEnv) : Process :=
  {| world := initial e; tasks := []; log := [] |}.

(** A turn of the process: an activity starts and runs to its first
    [await] on the SDK, or the outcome awaited by the suspended run number
    [i] arrives and that run goes on to its next [await]. *)
Inductive Step :=
| Start (a : Activity)
| Deliver (i : nat).

Definition constructing (t : Task) : bool :=
  match t with Constructing _ _ => true | Calling _ _ => false end.

Fixpoint take (i : nat) (ts : list Task) : option (Task * list Task) :=
  match ts, i with
  | [], _ => None
  | t :: rest, O => Some (t, rest)
  | t :: rest, S j =>
      match take j rest with
      | Some (x, rest') => Some (x, t :: rest')
      | None => None
      end
  end.

Section Turns.

Variable sdk : Sdk.

(** [getMapInstance] up to its [await]: the guard and, with an empty cache,
    the call of the constructor.  [inl] is the handle returned at once,
    [inr] the outcome that is awaited. *)
Definition getMapInstance_enter (w : World) : (JsVal + Outcome) * World :=
  if truthy (mapInstance w) then (inl (mapInstance w), w)
  else (inr (sdk (calls w) (NewMap (config (env w)))),
        record (NewMap (config (env w))) w).

(** [getMapInstance] from its [await] on: the assignment and the return, or
    the rethrown error. *)
Definition getMapInstance_resume (o : Outcome) (w : World) : Completion JsVal * World :=
  match o with
  | Resolve created =>
      let w' := {| mapInstance := created; calls := calls w; env := env w |} in
      (Normal (mapInstance w'), w')
  | Reject error => (Throw error, w)
  end.

(** A handler from the return of [getMapInstance] to its [await] on the
    capability.  [inl] is the response of a handler that ends here, in its
    catch clause. *)
Definition handler_continue (r : Request) (got : Completion JsVal) (w : World)
  : (Completion Response + Outcome) * World :=
  match got with
  | Throw error => (inl (fst (recover r error w)), w)
  | Normal map =>
      if nullish map
      then (inl (fst (recover r (read_of_nullish map (method_name r)) w)), w)
      else (inr (sdk (calls w) (capability r map)), record (capability r map) w)
  end.

(** A handler from its [await] on the capability on. *)
Definition handler_resume (r : Request) (o : Outcome) (w : World) : Completion Response :=
  match o with
  | Resolve x => Normal (json (success_envelope r x))
  | Reject error => fst (recover r error w)
  end.

Definition handler_goes_on (r : Request) (got : Completion JsVal) (w : World)
    (ts : list Task) (lg : list Finished) : Process :=
  match handler_continue r got w with
  | (inl response, w') =>
      {| world := w'; tasks := ts; log := Responded r response :: Handle_returned got :: lg |}
  | (inr o, w') =>
      {| world := w'; tasks := (ts ++ [Calling r o])%list; log := Handle_returned got :: lg |}
  end.

Definition start (a : Activity) (p : Process) : Process :=
  match a with
  | GetHandle =>
      match getMapInstance_enter (world p) with
      | (inl cached, w) =>
          {| world := w; tasks := tasks p; log := Handle_returned (Normal cached) :: log p |}
      | (inr o, w) =>
          {| world := w; tasks := (tasks p ++ [Constructing GetHandle o])%list; log := log p |}
      end
  | Serve r =>
      if valid r then
        match getMapInstance_enter (world p) with
        | (inl cached, w) => handler_goes_on r (Normal cached) w (tasks p) (log p)
        | (inr o, w) =>
            {| world := w; tasks := (tasks p ++ [Constructing (Serve r) o])%list;
               log := log p |}
        end
      else
        {| world := world p; tasks := tasks p;
           log := Responded r (Normal (rejection r)) :: log p |}
  end.

Definition deliver (i : nat) (p : Process) : Process :=
  match take i (tasks p) with
  | None => p
  | Some (Constructing who o, rest) =>
      match getMapInstance_resume o (world p) with
      | (got, w) =>
          match who with
          | GetHandle => {| world := w; tasks := rest; log := Handle_returned got :: log p |}
          | Serve r => handler_goes_on r got w rest (log p)
          end
      end
  | Some (Calling r o, rest) =>
      {| world := world p; tasks := rest;
         log := Responded r (handler_resume r o (world p)) :: log p |}
  end.

Definition run_step (s : Step) (p : Process) : Process :=
  match s with
  | Start a => start a p
  | Deliver i => deliver i p
  end.

Definition run (steps : list Step) (p : Process) : Process :=
  fold_left (fun p s => run_step s p) steps p.

End Turns.

(** The turns of activities that follow one another: each is started and
    the outcomes it awaits are delivered before the next starts. *)
Definition in_sequence (acts : list Activity) : list Step :=
  flat_map (fun a => [Start a; Deliver 0; Deliver 0]) acts.

(** The [n]-th construction of the process resolves with a handle of its
    own. *)
Definition sdk_numbering : Sdk :=
  fun earlier c =>
    match c with
    | NewMap _ =>
        Resolve (JObj [("construction",
                        JNum (Int (Z.of_nat (List.length (filter is_NewMap earlier)))))])
    | _ => Resolve (JArr [])
    end.

End Interleaved.

(** ** Properties of the built-ins *)

Section OwnPropertyOrder.

Lemma insert_index_perm (i : Z) (p : Property) (l : list (Z * Property)) :
  Permutation (insert_index i p l) ((i, p) :: l).
Proof.
  induction l as [|[j q] l IH]; simpl.
  - apply Permutation_refl.
  - destruct (i <=? j).
    + apply Permutation_refl.
    + eapply perm_trans; [apply perm_skip, IH | apply perm_swap].
Qed.

Lemma own_properties_perm (props : list Property) :
  Permutation (own_properties props) props.
Proof.
  unfold own_properties.
  induction props as [|p props IH]; simpl.
  - apply Permutation_refl.
  - destruct (array_index (fst p)) as [i|]; simpl.
    + eapply perm_trans.
      * apply Permutation_app_tail, Permutation_map, insert_index_perm.
      * simpl. apply perm_skip, IH.
    + eapply perm_trans; [apply Permutation_sym, Permutation_middle|].
      apply perm_skip, IH.
Qed.

Lemma insert_index_sorted (i : Z) (p : Property) (l : list (Z * Property)) :
  Sorted (fun a b => fst a <= fst b) l ->
  Sorted (fun a b => fst a <= fst b) (insert_index i p l).
Proof.
  induction l as [|[j q] l IH]; simpl; intros Hs.
  - repeat constructor.
  - destruct (i <=? j) eqn:E.
    + constructor; [assumption|]. constructor. simpl. lia.
    + inversion Hs as [|? ? Hl Hhd]; subst.
      constructor; [apply IH, Hl|].
      destruct l as [|[k r] l]; simpl.
      * constructor. simpl. lia.
      * inversion Hhd; subst. simpl in *.
        destruct (i <=? k); constructor; simpl; lia.
Qed.

(** The array-index keys come out in ascending order. *)
Lemma index_properties_sorted (props : list Property) :
  Sorted (fun a b => fst a <= fst b) (index_properties props).
Proof.
  induction props as [|p props IH]; simpl.
  - constructor.
  - destruct (array_index (fst p)); [apply insert_index_sorted|]; exact IH.
Qed.

Lemma insert_index_In (i : Z) (p : Property) (l : list (Z * Property)) (x : Z * Property) :
  In x (insert_index i p l) -> x = (i, p) \/ In x l.
Proof.
  intros H. apply (Permutation_in _ (insert_index_perm i p l)) in H.
  destruct H; [left; congruence | right; assumption].
Qed.

Lemma index_properties_In (props : list Property) (j : Z) (q : Property) :
  In (j, q) (index_properties props) -> In q props /\ array_index (fst q) = Some j.
Proof.
  induction props as [|p props IH]; simpl; [tauto|].
  destruct (array_index (fst p)) as [i|] eqn:E; intros H.
  - apply insert_index_In in H. destruct H as [H|H].
    + inversion H; subst. auto.
    + destruct (IH H). auto.
  - destruct (IH H). auto.
Qed.

Lemma index_properties_none (props : list Property) :
  Forall (fun q => array_index (fst q) = None) props -> index_properties props = [].
Proof.
  induction 1 as [|q props Hq _ IH]; simpl; [reflexivity|].
  rewrite Hq. exact IH.
Qed.

(** When the array-index keys were created first and in ascending order,
    own-property order is creation order. *)
Lemma own_properties_sorted (props : list Property) :
  StronglySorted key_order props -> own_properties props = props.
Proof.
  unfold own_properties.
  induction 1 as [|p props Hs IH Hall]; simpl; [reflexivity|].
  destruct (array_index (fst p)) as [i|] eqn:E.
  - assert (Hins : insert_index i p (index_properties props)
                   = (i, p) :: index_properties props).
    { destruct (index_properties props) as [|[j q] l] eqn:El; [reflexivity|].
      simpl.
      assert (Hin : In (j, q) (index_properties props)) by (rewrite El; left; reflexivity).
      apply index_properties_In in Hin. destruct Hin as [Hq Hj].
      rewrite Forall_forall in Hall. specialize (Hall q Hq).
      unfold key_order in Hall. rewrite E, Hj in Hall.
      assert (Hle : (i <=? j) = true) by (apply Z.leb_le; lia).
      rewrite Hle. reflexivity. }
    rewrite Hins. simpl. f_equal. exact IH.
  - assert (Hnone : Forall (fun q => array_index (fst q) = None) props).
    { eapply Forall_impl; [|exact Hall]. intros q Hq.
      unfold key_order in Hq. rewrite E in Hq.
      destruct (array_index (fst q)); [contradiction | reflexivity]. }
    rewrite (index_properties_none props Hnone) in *. simpl in *.
    unfold named_properties in *. simpl. rewrite IH. reflexivity.
Qed.

End OwnPropertyOrder.

Section Normalizers.

Lemma poisArray_of_normalize (raw : JsVal) (w : World) :
  poisArray_of raw w = (Normal (normalize raw), w).
Proof.
  unfold poisArray_of, ret, lift.
  destruct raw as [| |b|n|s|elems|props|n m st]; simpl; try reflexivity.
  - destruct b; reflexivity.
  - destruct n as [| |neg|z]; try reflexivity. destruct (z =? 0); reflexivity.
  - destruct (s =? "")%string; reflexivity.
Qed.

Lemma resultsArray_of_normalize (raw : JsVal) (w : World) :
  resultsArray_of raw w = (Normal (normalize raw), w).
Proof. exact (poisArray_of_normalize raw w). Qed.

Lemma structuresArray_of_normalize (raw : JsVal) (w : World) :
  structuresArray_of raw w = (Normal (normalize raw), w).
Proof. exact (poisArray_of_normalize raw w). Qed.

Lemma normalize_is_array (raw : JsVal) :
  exists items, normalize raw = JArr items.
Proof. destruct raw; simpl; eauto. Qed.

End Normalizers.

Section ParseInt.

Ltac ascii_cases c :=
  destruct c as [[] [] [] [] [] [] [] []].

Lemma digit_not_whitespace (c : ascii) :
  is_digit c = true -> is_whitespace c = false.
Proof. ascii_cases c; vm_compute; congruence. Qed.

Lemma digit_not_sign (c : ascii) :
  is_digit c = true -> Ascii.eqb c "-" = false /\ Ascii.eqb c "+" = false.
Proof. ascii_cases c; vm_compute; intuition congruence. Qed.

Lemma trim_start_whitespace (ws s : string) :
  all_whitespace ws = true -> trim_start (ws ++ s) = trim_start s.
Proof.
  induction ws as [|c ws IH]; simpl; [reflexivity|].
  intros H. apply andb_prop in H. destruct H as [Hc Hws].
  rewrite Hc. exact (IH Hws).
Qed.

Lemma trim_start_split (s : string) :
  exists ws, s = ws ++ trim_start s /\ all_whitespace ws = true.
Proof.
  induction s as [|c s [ws [Hs Hws]]]; simpl.
  - exists "". auto.
  - destruct (is_whitespace c) eqn:E.
    + exists (String c ws). simpl. rewrite E, Hws, <- Hs. auto.
    + exists "". auto.
Qed.

Lemma trim_start_head (s : string) :
  match trim_start s with
  | String c _ => is_whitespace c = false
  | EmptyString => True
  end.
Proof.
  induction s as [|c s IH]; simpl; [exact I|].
  destruct (is_whitespace c) eqn:E; [exact IH | exact E].
Qed.

Lemma digit_prefix_digits (ds rest : string) :
  all_digits ds = true -> starts_with_digit rest = false ->
  digit_prefix (ds ++ rest) = ds.
Proof.
  induction ds as [|c ds IH]; simpl; intros Hd Hr.
  - destruct rest as [|c r]; simpl in *; [reflexivity | rewrite Hr; reflexivity].
  - apply andb_prop in Hd. destruct Hd as [Hc Hds].
    rewrite Hc, (IH Hds Hr). reflexivity.
Qed.

Lemma digit_prefix_split (s : string) :
  exists rest, s = digit_prefix s ++ rest /\ starts_with_digit rest = false.
Proof.
  induction s as [|c s [rest [Hs Hr]]]; simpl.
  - exists "". auto.
  - destruct (is_digit c) eqn:E.
    + exists rest. simpl. rewrite <- Hs. auto.
    + exists (String c s). simpl. auto.
Qed.

Lemma digit_prefix_all_digits (s : string) :
  all_digits (digit_prefix s) = true.
Proof.
  induction s as [|c s IH]; simpl; [reflexivity|].
  destruct (is_digit c) eqn:E; simpl; [rewrite E; exact IH | reflexivity].
Qed.

Lemma to_number_not_NaN (negative : bool) (n : Z) :
  to_number negative n <> NaN.
Proof.
  unfold to_number.
  destruct (n =? 0); [destruct negative; discriminate|].
  destruct (nearest_double n); discriminate.
Qed.

(** Integers of at most 53 bits are doubles. *)
Lemma to_number_exact (negative : bool) (n : Z) :
  0 < n < 2 ^ 53 ->
  to_number negative n = Int (if negative then - n else n).
Proof.
  intros [Hpos Hlt]. unfold to_number, nearest_double.
  destruct (n =? 0) eqn:E; [apply Z.eqb_eq in E; lia|].
  assert (Hlog : Z.log2 n < 53) by (apply Z.log2_lt_pow2; lia).
  destruct (Z.log2 n + 1 <=? 53) eqn:E2; [reflexivity|].
  apply Z.leb_gt in E2. lia.
Qed.

Lemma parseInt10_trimmed (input : string) (c : ascii) (r : string) :
  trim_start input = String c r ->
  parseInt10 input =
    if Ascii.eqb c "-" then parse_signed true r
    else if Ascii.eqb c "+" then parse_signed false r
    else parse_signed false (String c r).
Proof.
  unfold parseInt10, parse_signed. intros ->.
  ascii_cases c; reflexivity.
Qed.

Lemma parseInt10_empty (input : string) :
  trim_start input = "" -> parseInt10 input = NaN.
Proof. unfold parseInt10. intros ->. reflexivity. Qed.

Lemma parse_signed_digits (negative : bool) (ds rest : string) :
  ds <> "" -> all_digits ds = true -> starts_with_digit rest = false ->
  parse_signed negative (ds ++ rest) = to_number negative (digits_value 0 ds).
Proof.
  intros Hne Hd Hr. unfold parse_signed.
  rewrite (digit_prefix_digits ds rest Hd Hr).
  destruct ds; [congruence | reflexivity].
Qed.

(** [parseInt(id, 10)] is the value of the sign and of the leading digits. *)
Lemma parseInt10_prefix (id : string) (negative : bool) (ds : string) :
  integer_prefix id negative ds ->
  parseInt10 id = to_number negative (digits_value 0 ds).
Proof.
  intros (ws & sign & rest & Hid & Hws & Hsign & Hne & Hd & Hr).
  destruct ds as [|d ds]; [congruence|].
  assert (Hdig : is_digit d = true) by (simpl in Hd; apply andb_prop in Hd; tauto).
  destruct (digit_not_sign d Hdig) as [Hm Hp].
  pose proof (digit_not_whitespace d Hdig) as Hnw.
  destruct Hsign as [[-> ->]|[[-> ->]|[-> ->]]]; subst id.
  - rewrite (parseInt10_trimmed _ d (ds ++ rest)).
    + rewrite Hm, Hp. apply (parse_signed_digits false (String d ds) rest Hne Hd Hr).
    + rewrite trim_start_whitespace by assumption. simpl. rewrite Hnw. reflexivity.
  - rewrite (parseInt10_trimmed _ "+" (String d ds ++ rest)).
    + apply (parse_signed_digits false (String d ds) rest Hne Hd Hr).
    + rewrite trim_start_whitespace by assumption. reflexivity.
  - rewrite (parseInt10_trimmed _ "-" (String d ds ++ rest)).
    + apply (parse_signed_digits true (String d ds) rest Hne Hd Hr).
    + rewrite trim_start_whitespace by assumption. reflexivity.
Qed.

Lemma parse_signed_shape (negative : bool) (s : string) :
  parse_signed negative s <> NaN ->
  exists ds rest, s = ds ++ rest /\ ds <> "" /\ all_digits ds = true
                  /\ starts_with_digit rest = false.
Proof.
  unfold parse_signed. intros H.
  destruct (digit_prefix_split s) as [rest [Hs Hr]].
  exists (digit_prefix s), rest.
  repeat split; auto using digit_prefix_all_digits.
  destruct (digit_prefix s); congruence.
Qed.

(** [parseInt(id, 10)] is NaN exactly when [id] does not start, after white
    space and a sign, with a decimal digit. *)
Lemma parseInt10_NaN_iff (id : string) :
  parseInt10 id = NaN <-> ~ parseable id.
Proof.
  split.
  - intros HNaN (negative & ds & Hp).
    rewrite (parseInt10_prefix id negative ds Hp) in HNaN.
    exact (to_number_not_NaN _ _ HNaN).
  - intros Hnot.
    destruct (trim_start_split id) as [ws [Hid Hws]].
    destruct (trim_start id) as [|c r] eqn:Et; [apply parseInt10_empty, Et|].
    rewrite (parseInt10_trimmed id c r Et).
    destruct (Ascii.eqb_spec c "-") as [->|Hm];
      [|destruct (Ascii.eqb_spec c "+") as [->|Hp]].
    + destruct (parse_signed true r) eqn:E; try reflexivity; exfalso; apply Hnot;
        (destruct (parse_signed_shape true r) as (ds & rest & -> & ? & ? & ?);
         [congruence|]; exists true, ds, ws, "-", rest; simpl; intuition).
    + destruct (parse_signed false r) eqn:E; try reflexivity; exfalso; apply Hnot;
        (destruct (parse_signed_shape false r) as (ds & rest & -> & ? & ? & ?);
         [congruence|]; exists false, ds, ws, "+", rest; simpl; intuition).
    + destruct (parse_signed false (String c r)) eqn:E; try reflexivity;
        exfalso; apply Hnot;
        (destruct (parse_signed_shape false (String c r)) as (ds & rest & Heq & ? & ? & ?);
         [congruence|]; exists false, ds, ws, "", rest; simpl;
         rewrite <- Heq; intuition).
Qed.

End ParseInt.

(** ** Properties of the handle cache *)

Section HandleCache.

Variable sdk : Sdk.

Lemma getMapInstance_cached (w : World) :
  truthy (mapInstance w) = true ->
  getMapInstance sdk w = (Normal (mapInstance w), w).
Proof.
  intros H. unfold getMapInstance, bind, get_mapInstance, ret. rewrite H. reflexivity.
Qed.

Lemma getMapInstance_resolved (w : World) (v : JsVal) :
  truthy (mapInstance w) = false ->
  sdk (calls w) (NewMap (config (env w))) = Resolve v ->
  getMapInstance sdk w = (Normal v, constructed v w).
Proof.
  intros H Hs.
  unfold getMapInstance, bind, get_mapInstance, process_env, try_catch, await.
  rewrite H, Hs. reflexivity.
Qed.

Lemma getMapInstance_rejected (w : World) (e : JsVal) :
  truthy (mapInstance w) = false ->
  sdk (calls w) (NewMap (config (env w))) = Reject e ->
  getMapInstance sdk w = (Throw e, record (NewMap (config (env w))) w).
Proof.
  intros H Hs.
  unfold getMapInstance, bind, get_mapInstance, process_env, try_catch, await, throw.
  rewrite H, Hs. reflexivity.
Qed.

(** The three ways a call of [getMapInstance] can go. *)
Lemma getMapInstance_cases (w : World) :
  (truthy (mapInstance w) = true /\
   getMapInstance sdk w = (Normal (mapInstance w), w)) \/
  (truthy (mapInstance w) = false /\
   exists v, sdk (calls w) (NewMap (config (env w))) = Resolve v /\
             getMapInstance sdk w = (Normal v, constructed v w)) \/
  (truthy (mapInstance w) = false /\
   exists e, sdk (calls w) (NewMap (config (env w))) = Reject e /\
             getMapInstance sdk w = (Throw e, record (NewMap (config (env w))) w)).
Proof.
  destruct (truthy (mapInstance w)) eqn:H.
  - left. auto using getMapInstance_cached.
  - right. destruct (sdk (calls w) (NewMap (config (env w)))) as [v|e] eqn:Hs.
    + left. eauto using getMapInstance_resolved.
    + right. eauto using getMapInstance_rejected.
Qed.

(** With an empty cache, a call invokes the constructor. *)
Lemma empty_cache_constructs (w : World) :
  truthy (mapInstance w) = false ->
  constructions (snd (getMapInstance sdk w)) = S (constructions w).
Proof.
  intros H.
  destruct (getMapInstance_cases w) as [[H1 _]|[[_ (v & _ & ->)]|[_ (e & _ & ->)]]];
    [congruence | reflexivity | reflexivity].
Qed.

(** A handle that a call returns and that is truthy is the cached one. *)
Lemma returned_handle_cached (w w1 : World) (h : JsVal) :
  getMapInstance sdk w = (Normal h, w1) -> truthy h = true ->
  mapInstance w1 = h.
Proof.
  intros Hget Hh.
  destruct (getMapInstance_cases w) as [[H1 E]|[[_ (v & _ & E)]|[_ (e & _ & E)]]];
    rewrite E in Hget; inversion Hget; subst; reflexivity.
Qed.

End HandleCache.

(** ** Properties of the route handlers *)

Section Handlers.

Variable sdk : Sdk.

(** The four ways the protocol can go. *)
Lemma fetch_cases (name : string) (capability : JsVal -> SdkCall)
    (envelope : JsVal -> JsVal) (w : World) :
  (exists e w1, getMapInstance sdk w = (Throw e, w1) /\
     fetch sdk name capability envelope w = (Throw e, w1)) \/
  (exists h w1, getMapInstance sdk w = (Normal h, w1) /\ nullish h = true /\
     fetch sdk name capability envelope w = (Throw (read_of_nullish h name), w1)) \/
  (exists h w1 e, getMapInstance sdk w = (Normal h, w1) /\ nullish h = false /\
     sdk (calls w1) (capability h) = Reject e /\
     fetch sdk name capability envelope w = (Throw e, record (capability h) w1)) \/
  (exists h w1 x, getMapInstance sdk w = (Normal h, w1) /\ nullish h = false /\
     sdk (calls w1) (capability h) = Resolve x /\
     fetch sdk name capability envelope w
     = (Normal (json (envelope x)), record (capability h) w1)).
Proof.
  unfold fetch, bind, call_method, await, throw, ret.
  destruct (getMapInstance sdk w) as [[h|e] w1].
  - destruct (nullish h) eqn:Hn.
    + right. left. eauto.
    + destruct (sdk (calls w1) (capability h)) as [x|e] eqn:Hs.
      * right. right. right. exists h, w1, x. auto.
      * right. right. left. exists h, w1, e. auto.
  - left. eauto.
Qed.

(** Each handler is its validation followed by the protocol. *)
Lemma GET_protocol (r : Request) (w : World) :
  GET sdk r w =
    if valid r then try_catch (attempt sdk r) (recover r) w
    else (Normal (rejection r), w).
Proof.
  destruct r as [| |q| |id]; simpl.
  - unfold GET_pois, try_catch, attempt, fetch, bind. simpl.
    destruct (getMapInstance sdk w) as [[h|e] w1]; [|reflexivity].
    destruct (call_method sdk h "getAllPOIs" (GetAllPOIs h) w1) as [[x|e] w2]; [|reflexivity].
    rewrite poisArray_of_normalize. reflexivity.
  - reflexivity.
  - unfold GET_search. destruct (truthy (query_value q)) eqn:Hq; simpl; [|reflexivity].
    destruct q as [s|]; [|discriminate]. simpl.
    unfold try_catch, attempt, fetch, bind. simpl.
    destruct (getMapInstance sdk w) as [[h|e] w1]; [|reflexivity].
    destruct (call_method sdk h "search" (Search h s) w1) as [[x|e] w2]; [|reflexivity].
    rewrite resultsArray_of_normalize. reflexivity.
  - unfold GET_structures, try_catch, attempt, fetch, bind. simpl.
    destruct (getMapInstance sdk w) as [[h|e] w1]; [|reflexivity].
    destruct (call_method sdk h "getStructures" (GetStructures h) w1) as [[x|e] w2];
      [|reflexivity].
    rewrite structuresArray_of_normalize. reflexivity.
  - unfold GET_poi, try_catch. destruct (isNaN (parseInt10 id)); reflexivity.
Qed.

(** The catch clause leaves the world as it is; it answers with the message
    of the caught value, unless that value is [null] or [undefined]. *)
Lemma recover_cases (r : Request) (e : JsVal) (w : World) :
  (exists m, get_prop e "message" = Normal m /\
     recover r e w = (Normal (json_status (failure_envelope r m) 500), w)) \/
  (nullish e = true /\ exists t, recover r e w = (Throw t, w)).
Proof.
  destruct e; destruct r; simpl;
    solve [ left; eexists; split; reflexivity
          | right; split; [reflexivity | eexists; reflexivity] ].
Qed.

Lemma recover_message (r : Request) (e m : JsVal) (w : World) :
  get_prop e "message" = Normal m ->
  recover r e w = (Normal (json_status (failure_envelope r m) 500), w).
Proof.
  intros Hm.
  destruct (recover_cases r e w) as [(m' & Hm' & E)|(Hn & _)].
  - congruence.
  - destruct e; discriminate.
Qed.

Lemma recover_world (r : Request) (e : JsVal) (w : World) :
  recover r e w = (fst (recover r e w), w).
Proof.
  destruct (recover_cases r e w) as [(m & _ & E)|(_ & t & E)]; rewrite E; reflexivity.
Qed.

Lemma GET_outcome (r : Request) (w w' : World) (result : Completion Response) :
  GET sdk r w = (result, w') -> Outcome_of sdk r w result w'.
Proof.
  intros E. rewrite GET_protocol in E. destruct (valid r) eqn:Hv.
  - unfold try_catch, attempt in E.
    destruct (fetch_cases (method_name r) (capability r) (success_envelope r) w)
      as [(e & w1 & Hg & E')|[(h & w1 & Hg & Hn & E')|[(h & w1 & e & Hg & Hn & Hs & E')
         |(h & w1 & x & Hg & Hn & Hs & E')]]]; rewrite E' in E.
    + rewrite recover_world in E. inversion E; subst.
      eapply construction_failed; eauto using recover_world.
    + rewrite recover_world in E. inversion E; subst.
      eapply no_handle; eauto using recover_world.
    + rewrite recover_world in E. inversion E; subst.
      eapply capability_failed; eauto using recover_world.
    + inversion E; subst. eapply served; eauto.
  - inversion E; subst. apply rejected, Hv.
Qed.

Lemma capability_not_NewMap (r : Request) (h : JsVal) :
  is_NewMap (capability r h) = false.
Proof. destruct r; reflexivity. Qed.

Lemma truthy_not_nullish (v : JsVal) : truthy v = true -> nullish v = false.
Proof. destruct v; simpl; congruence. Qed.

(** Once the cache holds a truthy handle, nothing that runs in the process
    changes it or invokes the constructor. *)
Lemma cache_stable (a : Activity) (w : World) :
  truthy (mapInstance w) = true ->
  mapInstance (after sdk a w) = mapInstance w /\
  constructions (after sdk a w) = constructions w.
Proof.
  intros Ht. pose proof (getMapInstance_cached sdk w Ht) as Hc.
  destruct a as [r|]; simpl; [|rewrite Hc; auto].
  destruct (GET sdk r w) as [res w'] eqn:E. apply GET_outcome in E. simpl.
  destruct E as [Hv|h w1 x Hv Hg Hn Hs|h w1 e res Hv Hg Hn Hs Hr|h w1 res Hv Hg Hn Hr
                 |e w1 res Hv Hg Hr]; auto;
    rewrite Hc in Hg; inversion Hg; subst; auto;
    unfold constructions; simpl; rewrite capability_not_NewMap; auto.
Qed.

Lemma cache_stable_all (acts : list Activity) (w : World) :
  truthy (mapInstance w) = true ->
  mapInstance (after_all sdk acts w) = mapInstance w /\
  constructions (after_all sdk acts w) = constructions w.
Proof.
  revert w. induction acts as [|a acts IH]; intros w Ht; simpl; [auto|].
  destruct (cache_stable a w Ht) as [Hm Hc].
  destruct (IH (after sdk a w)) as [Hm' Hc']; [congruence|].
  split; congruence.
Qed.

End Handlers.

(** ** Runs that overlap: the turns and the whole runs *)

Section Turns.

Import Interleaved.

Variable sdk : Sdk.

(** A whole call of [getMapInstance] is its two parts, one after the
    other. *)
Lemma getMapInstance_split (w : World) :
  getMapInstance sdk w
  = match getMapInstance_enter sdk w with
    | (inl h, w') => (Normal h, w')
    | (inr o, w') => getMapInstance_resume o w'
    end.
Proof.
  unfold getMapInstance_enter.
  destruct (truthy (mapInstance w)) eqn:Ht.
  - apply getMapInstance_cached, Ht.
  - destruct (sdk (calls w) (NewMap (config (env w)))) as [v|e] eqn:Hs.
    + rewrite (getMapInstance_resolved sdk w v Ht Hs). reflexivity.
    + rewrite (getMapInstance_rejected sdk w e Ht Hs). reflexivity.
Qed.

(** A whole run of a handler, from the return of [getMapInstance] on. *)
Lemma GET_from_handle (r : Request) (w w1 : World) (got : Completion JsVal) :
  valid r = true ->
  getMapInstance sdk w = (got, w1) ->
  GET sdk r w
  = match handler_continue sdk r got w1 with
    | (inl response, w2) => (response, w2)
    | (inr o, w2) => (handler_resume r o w2, w2)
    end.
Proof.
  intros Hv Hg. rewrite GET_protocol, Hv.
  unfold try_catch, attempt, fetch, bind. rewrite Hg.
  unfold handler_continue, handler_resume, call_method, await, throw, ret.
  destruct got as [h|e].
  - destruct (nullish h).
    + apply recover_world.
    + destruct (sdk (calls w1) (capability r h)); [reflexivity | apply recover_world].
  - apply recover_world.
Qed.

Lemma deliver_nothing (i : nat) (p : Process) :
  tasks p = [] -> deliver sdk i p = p.
Proof. intros H. unfold deliver. rewrite H. destruct i; reflexivity. Qed.

Lemma deliver_call (r : Request) (o : Outcome) (w : World) (lg : list Finished) :
  deliver sdk 0 {| world := w; tasks := [Calling r o]; log := lg |}
  = {| world := w; tasks := []; log := Responded r (handler_resume r o w) :: lg |}.
Proof. reflexivity. Qed.

Lemma handler_goes_on_done (r : Request) (got : Completion JsVal) (w : World)
    (lg : list Finished) :
  let p := deliver sdk 0 (handler_goes_on sdk r got w [] lg) in
  tasks p = [] /\
  world p = snd (handler_continue sdk r got w) /\
  exists entries, log p = (entries ++ lg)%list.
Proof.
  unfold handler_goes_on.
  destruct (handler_continue sdk r got w) as [[response|o] w2]; simpl.
  - split; [reflexivity|]. split; [reflexivity|].
    exists [Responded r response; Handle_returned got]. reflexivity.
  - split; [reflexivity|]. split; [reflexivity|].
    exists [Responded r (handler_resume r o w2); Handle_returned got]. reflexivity.
Qed.

(** An activity that is started and given the outcomes it awaits before
    anything else takes a turn is a whole run. *)
Lemma whole_run (a : Activity) (p : Process) :
  tasks p = [] ->
  world (run sdk [Start a; Deliver 0; Deliver 0] p) = after sdk a (world p) /\
  tasks (run sdk [Start a; Deliver 0; Deliver 0] p) = [].
Proof.
  destruct p as [w ts lg]. cbn [tasks world]. intros ->.
  unfold run, fold_left, run_step.
  destruct a as [r|]; unfold start, after; cbn [world tasks log].
  - destruct (valid r) eqn:Hv.
    + destruct (getMapInstance sdk w) as [got w1] eqn:Hg.
      rewrite (GET_from_handle r w w1 got Hv Hg).
      rewrite getMapInstance_split in Hg.
      assert (Hsnd : snd (match handler_continue sdk r got w1 with
                          | (inl response, w2) => (response, w2)
                          | (inr o, w2) => (handler_resume r o w2, w2)
                          end) = snd (handler_continue sdk r got w1)).
      { destruct (handler_continue sdk r got w1) as [[response|o] w2]; reflexivity. }
      rewrite Hsnd.
      destruct (getMapInstance_enter sdk w) as [[h|o] w0] eqn:He.
      * inversion Hg; subst got w0.
        destruct (handler_goes_on_done r (Normal h) w1 lg) as (Ht & Hw & _).
        rewrite deliver_nothing by exact Ht. auto.
      * assert (E : deliver sdk 0 {| world := w0; tasks := ([] ++ [Constructing (Serve r) o])%list;
                                     log := lg |}
                    = handler_goes_on sdk r got w1 [] lg).
        { unfold deliver. simpl. rewrite Hg. reflexivity. }
        rewrite E.
        destruct (handler_goes_on_done r got w1 lg) as (Ht & Hw & _).
        split; [exact Hw | exact Ht].
    + rewrite GET_protocol, Hv. rewrite !deliver_nothing by reflexivity. auto.
  - rewrite getMapInstance_split.
    destruct (getMapInstance_enter sdk w) as [[h|o] w0] eqn:He.
    + rewrite !deliver_nothing by reflexivity. auto.
    + assert (E : deliver sdk 0 {| world := w0; tasks := ([] ++ [Constructing GetHandle o])%list;
                                   log := lg |}
                  = {| world := snd (getMapInstance_resume o w0); tasks := [];
                       log := Handle_returned (fst (getMapInstance_resume o w0)) :: lg |}).
      { unfold deliver. simpl. destruct (getMapInstance_resume o w0). reflexivity. }
      rewrite E. rewrite deliver_nothing by reflexivity. auto.
Qed.

Lemma in_sequence_is_after_all (acts : list Activity) (p : Process) :
  tasks p = [] ->
  world (run sdk (in_sequence acts) p) = after_all sdk acts (world p) /\
  tasks (run sdk (in_sequence acts) p) = [].
Proof.
  revert p. induction acts as [|a acts IH]; intros p Hp; [simpl; auto|].
  change (in_sequence (a :: acts))
    with ([Start a; Deliver 0; Deliver 0] ++ in_sequence acts)%list.
  unfold run. rewrite fold_left_app. fold (run sdk [Start a; Deliver 0; Deliver 0] p).
  fold (run sdk (in_sequence acts) (run sdk [Start a; Deliver 0; Deliver 0] p)).
  destruct (whole_run a p Hp) as [Hw Ht].
  destruct (IH _ Ht) as [Hw' Ht'].
  split; [|exact Ht']. rewrite Hw', Hw. reflexivity.
Qed.

End Turns.

(** ** The normalization of SDK results *)

(** C1, as stated, fails: the values of an object whose array-index keys
    were not created in ascending order do not come out in insertion
    order.  [Object.values({"1": "b", "0": "a"})] is [["a", "b"]]. *)
Lemma values_not_in_insertion_order :
  let raw := JObj [("1", JStr "b"); ("0", JStr "a")] in
  poisArray_of raw Samples.process = (Normal (JArr [JStr "a"; JStr "b"]), Samples.process) /\
  normalize_insertion_order raw = JArr [JStr "b"; JStr "a"] /\
  poisArray_of raw Samples.process
  <> (Normal (normalize_insertion_order raw), Samples.process).
Proof. repeat split. discriminate. Qed.

(** C1 (amended).  The three list routes normalize a raw SDK result by the
    same rule [normalize]: an array is returned unchanged; an object is
    replaced by the sequence of its values in own-property order (the values
    of the array-index keys in ascending index order, then those of the
    other keys in insertion order), which holds every value exactly once and
    is insertion order whenever the keys were created in that order; any
    other value ([null], [undefined], a scalar) is replaced by the empty
    sequence.  In particular [normalize([]) = []], [normalize({}) = []],
    [normalize(null) = []] and [normalize({"0": a, "1": b}) = [a, b]]. *)
Theorem list_routes_normalize (raw : JsVal) (w : World) :
  poisArray_of raw w = (Normal (normalize raw), w) /\
  resultsArray_of raw w = (Normal (normalize raw), w) /\
  structuresArray_of raw w = (Normal (normalize raw), w) /\
  (forall elems, raw = JArr elems -> normalize raw = raw) /\
  (forall props, raw = JObj props ->
     normalize raw = JArr (map snd (map snd (index_properties props))
                           ++ map snd (named_properties props))%list /\
     Sorted (fun a b => fst a <= fst b) (index_properties props) /\
     Permutation (own_properties props) props /\
     (StronglySorted key_order props -> normalize raw = JArr (map snd props))) /\
  (is_object raw = false -> normalize raw = JArr []) /\
  normalize (JArr []) = JArr [] /\
  normalize (JObj []) = JArr [] /\
  normalize JNull = JArr [] /\
  (forall a b, normalize (JObj [("0", a); ("1", b)]) = JArr [a; b]).
Proof.
  split; [apply poisArray_of_normalize|].
  split; [apply resultsArray_of_normalize|].
  split; [apply structuresArray_of_normalize|].
  split; [intros elems ->; reflexivity|].
  split.
  { intros props ->. simpl. unfold own_properties. rewrite map_app.
    repeat split.
    - apply index_properties_sorted.
    - apply own_properties_perm.
    - intros Hs. rewrite <- map_app.
      change (map snd (index_properties props) ++ named_properties props)%list
        with (own_properties props).
      rewrite (own_properties_sorted props Hs). reflexivity. }
  split; [destruct raw; simpl; congruence|].
  repeat split.
Qed.

Lemma list_routes_normalize_witness :
  normalize (JObj [("0", Samples.poi 1); ("1", Samples.poi 2); ("name", JStr "lobby")])
  = JArr [Samples.poi 1; Samples.poi 2; JStr "lobby"].
Proof.
  destruct (list_routes_normalize
              (JObj [("0", Samples.poi 1); ("1", Samples.poi 2); ("name", JStr "lobby")])
              Samples.process) as (_ & _ & _ & _ & H & _).
  destruct (H _ eq_refl) as (_ & _ & _ & Hs).
  apply Hs. repeat constructor; vm_compute; reflexivity.
Defined.

(** ** The handle cache *)

Section OverlappingCalls.

Import Interleaved.

Variable sdk : Sdk.

Lemma take_constructing (i : nat) (ts rest : list Task) (t : Task) :
  take i ts = Some (t, rest) ->
  existsb constructing ts = false ->
  constructing t = false /\ existsb constructing rest = false.
Proof.
  revert i rest. induction ts as [|x ts IH]; intros i rest Htake Hnone;
    [destruct i; discriminate Htake|].
  simpl in Hnone. apply orb_false_iff in Hnone. destruct Hnone as [Hx Hts].
  destruct i as [|j]; simpl in Htake.
  - inversion Htake; subst. auto.
  - destruct (take j ts) as [[y rest']|] eqn:E; [|discriminate Htake].
    inversion Htake; subst. destruct (IH j rest' E Hts) as [Ht Hrest].
    split; [exact Ht|]. simpl. rewrite Hx, Hrest. reflexivity.
Qed.

(** What a handler adds once [getMapInstance] has returned [got] to it. *)
Lemma handler_goes_on_shape (r : Request) (got : Completion JsVal) (w : World)
    (ts : list Task) (lg : list Finished) :
  let p := handler_goes_on sdk r got w ts lg in
  mapInstance (world p) = mapInstance w /\
  constructions (world p) = constructions w /\
  (tasks p = ts \/ exists o, tasks p = (ts ++ [Calling r o])%list) /\
  exists entries,
    log p = (entries ++ lg)%list /\
    forall got', In (Handle_returned got') entries -> got' = got.
Proof.
  unfold handler_goes_on, handler_continue.
  assert (Hone : forall response got',
            In (Handle_returned got') [Responded r response; Handle_returned got] ->
            got' = got).
  { intros response got' [H|[H|[]]]; [discriminate | congruence]. }
  assert (Htwo : forall got', In (Handle_returned got') [Handle_returned got] -> got' = got).
  { intros got' [H|[]]. congruence. }
  destruct got as [h|e]; [destruct (nullish h)|]; simpl;
    (split; [reflexivity|]); (split; [unfold constructions; simpl;
                                       rewrite ?capability_not_NewMap; reflexivity|]).
  - split; [left; reflexivity|]. eexists [_; _]. split; [reflexivity | apply Hone].
  - split; [right; eexists; reflexivity|]. eexists [_]. split; [reflexivity | apply Htwo].
  - split; [left; reflexivity|]. eexists [_; _]. split; [reflexivity | apply Hone].
Qed.

(** The entries that one turn adds to the log, and the cache after a turn
    in which [getMapInstance] returned a truthy handle. *)
Lemma step_returns_handle (s : Step) (p : Process) :
  exists entries,
    log (run_step sdk s p) = (entries ++ log p)%list /\
    forall h, In (Handle_returned (Normal h)) entries -> truthy h = true ->
              mapInstance (world (run_step sdk s p)) = h.
Proof.
  destruct p as [w ts lg].
  destruct s as [[r|]|i]; unfold run_step, start, deliver; cbn [world tasks log].
  - destruct (valid r).
    + unfold getMapInstance_enter. destruct (truthy (mapInstance w)) eqn:Ht.
      * destruct (handler_goes_on_shape r (Normal (mapInstance w)) w ts lg)
          as (Hm & _ & _ & entries & Hlog & Hin).
        exists entries. split; [exact Hlog|].
        intros h Hh _. apply Hin in Hh. rewrite Hm. congruence.
      * exists []. split; [reflexivity|]. intros h [].
    + exists [Responded r (Normal (rejection r))]. split; [reflexivity|].
      intros h [H|[]]. discriminate.
  - unfold getMapInstance_enter. destruct (truthy (mapInstance w)) eqn:Ht.
    + exists [Handle_returned (Normal (mapInstance w))]. split; [reflexivity|].
      intros h [H|[]] _. simpl. congruence.
    + exists []. split; [reflexivity|]. intros h [].
  - destruct (take i ts) as [[[who o|r o] rest]|].
    + destruct o as [v|e]; simpl.
      * destruct who as [r|].
        -- destruct (handler_goes_on_shape r (Normal v)
                       {| mapInstance := v; calls := calls w; env := env w |} rest lg)
             as (Hm & _ & _ & entries & Hlog & Hin).
           exists entries. split; [exact Hlog|].
           intros h Hh _. apply Hin in Hh. rewrite Hm. simpl. congruence.
        -- exists [Handle_returned (Normal v)]. split; [reflexivity|].
           intros h [H|[]] _. simpl. congruence.
      * destruct who as [r|].
        -- destruct (handler_goes_on_shape r (Throw e) w rest lg)
             as (_ & _ & _ & entries & Hlog & Hin).
           exists entries. split; [exact Hlog|].
           intros h Hh _. apply Hin in Hh. discriminate.
        -- exists [Handle_returned (Throw e)]. split; [reflexivity|].
           intros h [H|[]]. discriminate.
    + exists [Responded r (handler_resume r o w)]. split; [reflexivity|].
      intros h [H|[]]. discriminate.
    + exists []. split; [reflexivity|]. intros h [].
Qed.

(** With a truthy handle in the cache and no construction in flight, a turn
    changes neither, constructs nothing, and every call of [getMapInstance]
    that completes in it returns that handle. *)
Lemma step_keeps_handle (s : Step) (p : Process) (h : JsVal) :
  mapInstance (world p) = h -> truthy h = true ->
  existsb constructing (tasks p) = false ->
  mapInstance (world (run_step sdk s p)) = h /\
  existsb constructing (tasks (run_step sdk s p)) = false /\
  constructions (world (run_step sdk s p)) = constructions (world p) /\
  exists later,
    log (run_step sdk s p) = (later ++ log p)%list /\
    forall got, In (Handle_returned got) later -> got = Normal h.
Proof.
  destruct p as [w ts lg]. cbn [world tasks log]. intros Hm Ht Hnone.
  assert (Htw : truthy (mapInstance w) = true) by congruence.
  destruct s as [[r|]|i]; unfold run_step, start, deliver; cbn [world tasks log].
  - destruct (valid r).
    + unfold getMapInstance_enter. rewrite Htw.
      destruct (handler_goes_on_shape r (Normal (mapInstance w)) w ts lg)
        as (Hm' & Hc & Htasks & entries & Hlog & Hin).
      split; [congruence|]. split; [|split; [exact Hc|]].
      * destruct Htasks as [->|[o ->]]; [exact Hnone|].
        rewrite existsb_app, Hnone. reflexivity.
      * exists entries. split; [exact Hlog|]. intros got Hg. apply Hin in Hg. congruence.
    + simpl. repeat split; auto.
      exists [Responded r (Normal (rejection r))]. split; [reflexivity|].
      intros got [H|[]]. discriminate.
  - unfold getMapInstance_enter. rewrite Htw. simpl. repeat split; auto.
    exists [Handle_returned (Normal (mapInstance w))]. split; [reflexivity|].
    intros got [H|[]]. congruence.
  - destruct (take i ts) as [[t rest]|] eqn:Htake.
    + destruct (take_constructing i ts rest t Htake Hnone) as [Hcall Hrest].
      destruct t as [who o|r o]; [discriminate|]. simpl. repeat split; auto.
      exists [Responded r (handler_resume r o w)]. split; [reflexivity|].
      intros got [H|[]]. discriminate.
    + simpl. repeat split; auto. exists []. split; [reflexivity|]. intros got [].
Qed.

Lemma run_keeps_handle (steps : list Step) (p : Process) (h : JsVal) :
  mapInstance (world p) = h -> truthy h = true ->
  existsb constructing (tasks p) = false ->
  mapInstance (world (run sdk steps p)) = h /\
  existsb constructing (tasks (run sdk steps p)) = false /\
  constructions (world (run sdk steps p)) = constructions (world p) /\
  exists later,
    log (run sdk steps p) = (later ++ log p)%list /\
    forall got, In (Handle_returned got) later -> got = Normal h.
Proof.
  revert p. induction steps as [|s steps IH]; intros p Hm Ht Hnone.
  - simpl. repeat split; auto. exists []. split; [reflexivity|]. intros got [].
  - destruct (step_keeps_handle s p h Hm Ht Hnone) as (Hm1 & Hn1 & Hc1 & later1 & Hl1 & Hin1).
    destruct (IH (run_step sdk s p) Hm1 Ht Hn1) as (Hm2 & Hn2 & Hc2 & later2 & Hl2 & Hin2).
    change (run sdk (s :: steps) p) with (run sdk steps (run_step sdk s p)).
    split; [exact Hm2|]. split; [exact Hn2|]. split; [congruence|].
    exists (later2 ++ later1)%list. split.
    + rewrite Hl2, Hl1, app_assoc. reflexivity.
    + intros got Hg. apply in_app_or in Hg. destruct Hg; auto.
Qed.

End OverlappingCalls.

(** C2, as stated, fails, in two ways.  A call that completes with a falsy
    handle leaves the cache empty: the constructor resolves with [null], the
    first call returns [null], the second invokes the constructor again and
    returns another value.  And a call that completes while another
    construction is in flight does not fix the handle: of two calls that
    both find the cache empty, the first returns its handle, the next call
    returns that handle too, then the second construction resolves and
    every later call returns the second handle; the constructor has run
    twice. *)
Lemma first_handle_is_not_kept :
  (let first := getMapInstance Samples.sdk_null_first Samples.process in
   let second := getMapInstance Samples.sdk_null_first (snd first) in
   fst first = Normal JNull /\
   fst second = Normal Samples.handle /\
   fst second <> fst first /\
   constructions (snd first) = 1%nat /\
   constructions (snd second) = 2%nat) /\
  (let sdk := Interleaved.sdk_numbering in
   let hA := JObj [("construction", JNum (Int 0))] in
   let hB := JObj [("construction", JNum (Int 1))] in
   let overlapping :=
     Interleaved.run sdk
       [Interleaved.Start GetHandle; Interleaved.Start GetHandle; Interleaved.Deliver 0]
       (Interleaved.boot (env Samples.process)) in
   let next := Interleaved.run sdk [Interleaved.Start GetHandle] overlapping in
   let later :=
     Interleaved.run sdk [Interleaved.Deliver 0; Interleaved.Start GetHandle] next in
   Interleaved.log overlapping = [Interleaved.Handle_returned (Normal hA)] /\
   truthy hA = true /\
   Interleaved.log next
   = [Interleaved.Handle_returned (Normal hA); Interleaved.Handle_returned (Normal hA)] /\
   Interleaved.log later
   = [Interleaved.Handle_returned (Normal hB); Interleaved.Handle_returned (Normal hB);
      Interleaved.Handle_returned (Normal hA); Interleaved.Handle_returned (Normal hA)] /\
   hB <> hA /\
   constructions (Interleaved.world later) = 2%nat).
Proof.
  split.
  - repeat split. discriminate.
  - repeat split. discriminate.
Qed.

(** C2 (amended).  Once a call of [getMapInstance] has completed with a
    truthy handle (every object is truthy) and no construction is in flight
    (no other call is suspended at [await Init.newMap]), then, whatever runs
    afterwards and however the runs overlap, every call of [getMapInstance]
    that completes returns the very same handle, a new call returns it at
    once and leaves the world untouched, and the SDK constructor is not
    invoked again. *)
Theorem cached_handle_is_reused (sdk : Sdk) (p : Interleaved.Process)
    (s : Interleaved.Step) (new : list Interleaved.Finished) (h : JsVal)
    (steps : list Interleaved.Step) :
  Interleaved.log (Interleaved.run_step sdk s p) = (new ++ Interleaved.log p)%list ->
  In (Interleaved.Handle_returned (Normal h)) new ->
  truthy h = true ->
  existsb Interleaved.constructing (Interleaved.tasks (Interleaved.run_step sdk s p)) = false ->
  let p1 := Interleaved.run_step sdk s p in
  let p2 := Interleaved.run sdk steps p1 in
  mapInstance (Interleaved.world p2) = h /\
  constructions (Interleaved.world p2) = constructions (Interleaved.world p1) /\
  (exists later,
     Interleaved.log p2 = (later ++ Interleaved.log p1)%list /\
     forall got, In (Interleaved.Handle_returned got) later -> got = Normal h) /\
  Interleaved.start sdk GetHandle p2
  = {| Interleaved.world := Interleaved.world p2;
       Interleaved.tasks := Interleaved.tasks p2;
       Interleaved.log := Interleaved.Handle_returned (Normal h) :: Interleaved.log p2 |}.
Proof.
  intros Hlog Hin Hh Hnone p1 p2.
  destruct (step_returns_handle sdk s p) as (entries & Hentries & Hcache).
  assert (Hsame : new = entries).
  { apply (app_inv_tail (Interleaved.log p)). congruence. }
  subst entries.
  pose proof (Hcache h Hin Hh) as Hm.
  destruct (run_keeps_handle sdk steps p1 h Hm Hh Hnone) as (Hm2 & _ & Hc2 & Hlater).
  fold p2 in Hm2, Hc2, Hlater.
  split; [exact Hm2|]. split; [exact Hc2|]. split; [exact Hlater|].
  unfold Interleaved.start, Interleaved.getMapInstance_enter.
  rewrite Hm2, Hh. reflexivity.
Qed.

Lemma cached_handle_is_reused_witness :
  let p := Interleaved.run Samples.sdk_up [Interleaved.Start GetHandle]
             (Interleaved.boot (env Samples.process)) in
  let p1 := Interleaved.run_step Samples.sdk_up (Interleaved.Deliver 0) p in
  let p2 := Interleaved.run Samples.sdk_up
              [Interleaved.Start (Serve ListPois); Interleaved.Start GetHandle;
               Interleaved.Start (Serve (SearchFor (Some "cafe")));
               Interleaved.Deliver 1; Interleaved.Deliver 0] p1 in
  mapInstance (Interleaved.world p2) = Samples.handle /\
  constructions (Interleaved.world p2) = constructions (Interleaved.world p1) /\
  (exists later,
     Interleaved.log p2 = (later ++ Interleaved.log p1)%list /\
     forall got, In (Interleaved.Handle_returned got) later -> got = Normal Samples.handle) /\
  Interleaved.start Samples.sdk_up GetHandle p2
  = {| Interleaved.world := Interleaved.world p2;
       Interleaved.tasks := Interleaved.tasks p2;
       Interleaved.log := Interleaved.Handle_returned (Normal Samples.handle)
                            :: Interleaved.log p2 |}.
Proof.
  exact (cached_handle_is_reused Samples.sdk_up
           (Interleaved.run Samples.sdk_up [Interleaved.Start GetHandle]
              (Interleaved.boot (env Samples.process)))
           (Interleaved.Deliver 0)
           [Interleaved.Handle_returned (Normal Samples.handle)] Samples.handle
           [Interleaved.Start (Serve ListPois); Interleaved.Start GetHandle;
            Interleaved.Start (Serve (SearchFor (Some "cafe")));
            Interleaved.Deliver 1; Interleaved.Deliver 0]
           eq_refl (or_introl eq_refl) eq_refl eq_refl).
Defined.



Section FalsyHandles.

Variable sdk : Sdk.

(** While the constructor resolves with falsy values, each call of
    [getMapInstance] is one more construction. *)
Lemma falsy_constructions (cfg : JsVal) (n : nat) (w : World) :
  (forall earlier, exists v, sdk earlier (NewMap cfg) = Resolve v /\ truthy v = false) ->
  config (env w) = cfg ->
  truthy (mapInstance w) = false ->
  truthy (mapInstance (after_all sdk (repeat GetHandle n) w)) = false /\
  constructions (after_all sdk (repeat GetHandle n) w) = (constructions w + n)%nat.
Proof.
  intros Hsdk. revert w.
  induction n as [|n IH]; intros w Hcfg Hempty; simpl.
  - split; [exact Hempty | apply plus_n_O].
  - destruct (Hsdk (calls w)) as (v & Hres & Hv). rewrite <- Hcfg in Hres.
    rewrite (getMapInstance_resolved sdk w v Hempty Hres). simpl.
    destruct (IH (constructed v w) Hcfg Hv) as [H1 H2].
    split; [exact H1|]. rewrite H2. unfold constructions. simpl.
    rewrite <- plus_n_Sm. reflexivity.
Qed.

End FalsyHandles.

(** C10.  If the SDK constructor resolves with a falsy handle [v],
    [getMapInstance] returns [v]; [mapInstance] then holds [v], which the
    truthiness guard treats as an empty cache: the next call invokes the
    constructor again, and as long as the constructor resolves with falsy
    values every call is one more construction.  Among runs that follow one
    another, a construction is the last one when its handle is truthy. *)
Theorem falsy_handle_not_memoized (sdk : Sdk) (w : World) (v : JsVal) :
  truthy (mapInstance w) = false ->
  sdk (calls w) (NewMap (config (env w))) = Resolve v ->
  truthy v = false ->
  let w1 := constructed v w in
  getMapInstance sdk w = (Normal v, w1) /\
  mapInstance w1 = v /\
  truthy (mapInstance w1) = false /\
  constructions w1 = S (constructions w) /\
  constructions (snd (getMapInstance sdk w1)) = S (constructions w1) /\
  (forall n,
     (forall earlier, exists v', sdk earlier (NewMap (config (env w))) = Resolve v'
                                 /\ truthy v' = false) ->
     constructions (after_all sdk (repeat GetHandle n) w1) = (constructions w1 + n)%nat) /\
  (forall w' w2 h acts,
     getMapInstance sdk w' = (Normal h, w2) -> truthy h = true ->
     constructions (after_all sdk acts w2) = constructions w2).
Proof.
  intros Hempty Hres Hv w1.
  split; [apply getMapInstance_resolved; assumption|].
  split; [reflexivity|].
  split; [exact Hv|].
  split; [reflexivity|].
  split; [apply empty_cache_constructs; exact Hv|].
  split.
  - intros n Hsdk.
    apply (falsy_constructions sdk (config (env w)) n w1 Hsdk eq_refl Hv).
  - intros w' w2 h acts Hget Hh.
    apply cache_stable_all.
    rewrite (returned_handle_cached sdk w' w2 h Hget Hh). exact Hh.
Qed.

Lemma falsy_handle_not_memoized_witness :
  let w1 := constructed JUndefined Samples.process in
  getMapInstance Samples.sdk_no_handle Samples.process = (Normal JUndefined, w1) /\
  constructions w1 = 1%nat /\
  constructions (after_all Samples.sdk_no_handle (repeat GetHandle 3) w1) = 4%nat.
Proof.
  destruct (falsy_handle_not_memoized Samples.sdk_no_handle Samples.process JUndefined
              eq_refl eq_refl eq_refl) as (H1 & _ & _ & H2 & _ & H3 & _).
  split; [exact H1|]. split; [exact H2|].
  apply (H3 3%nat). intros earlier. exists JUndefined. split; reflexivity.
Defined.

(** ** The response envelopes *)

(** C4.  Every response envelope that a route handler produces, on success
    and on failure, for each of the five routes: when [success] is [true]
    it has no [error] field, and when [success] is [false] it has no [data]
    field. *)
Theorem envelope_of_handler (sdk : Sdk) (r : Request) (w w' : World) (resp : Response) :
  GET sdk r w = (Normal resp, w') -> envelope_ok (body resp).
Proof.
  intros E. apply GET_outcome in E.
  assert (Hrec : forall e w0 w1, recover r e w0 = (Normal resp, w1) ->
                                 envelope_ok (body resp)).
  { intros e w0 w1 Hr.
    destruct (recover_cases r e w0) as [(m & _ & Hm)|(_ & t & Ht)]; rewrite Hr in *;
      [|discriminate].
    inversion Hm; subst. destruct r; split; simpl; congruence. }
  inversion E; subst; eauto.
  - destruct r; split; simpl; congruence.
  - destruct r; split; simpl; congruence.
Qed.

Lemma envelope_of_handler_witness :
  envelope_ok (list_envelope (JArr [Samples.poi 1; Samples.poi 2; Samples.poi 3])) /\
  envelope_ok (error_envelope (JStr "backend unreachable")).
Proof.
  split.
  - apply (envelope_of_handler Samples.sdk_up ListPois Samples.process
             (snd (GET Samples.sdk_up ListPois Samples.process))
             (json (list_envelope (JArr [Samples.poi 1; Samples.poi 2; Samples.poi 3])))).
    reflexivity.
  - apply (envelope_of_handler Samples.sdk_down VenueData Samples.process
             (snd (GET Samples.sdk_down VenueData Samples.process))
             (json_status (error_envelope (JStr "backend unreachable")) 500)).
    reflexivity.
Defined.

Section Histories.

Context {A : Type}.

Lemma no_call_split (later during tail : list A) (c : A) :
  tail <> (later ++ c :: during ++ tail)%list.
Proof.
  intros H. apply (f_equal (@List.length A)) in H.
  rewrite !length_app in H. simpl in H. rewrite length_app in H. lia.
Qed.

Lemma one_call_split (a c : A) (later during tail : list A) :
  (a :: tail = later ++ c :: during ++ tail)%list ->
  later = [] /\ c = a /\ during = [].
Proof.
  intros H.
  assert (H' : ([a] ++ tail = (later ++ c :: during) ++ tail)%list)
    by (rewrite <- app_assoc; exact H).
  apply app_inv_tail in H'.
  destruct later as [|x [|y later]]; destruct during; inversion H'; auto.
Qed.

Lemma two_calls_split (a b c : A) (later during tail : list A) :
  (a :: b :: tail = later ++ c :: during ++ tail)%list ->
  (later = [] /\ c = a /\ during = [b]) \/ (later = [a] /\ c = b /\ during = []).
Proof.
  intros H.
  assert (H' : ([a; b] ++ tail = (later ++ c :: during) ++ tail)%list)
    by (rewrite <- app_assoc; exact H).
  apply app_inv_tail in H'.
  destruct later as [|x [|y [|z later]]]; simpl in H'.
  - destruct during as [|d [|d' during]]; inversion H'; auto.
  - destruct during; inversion H'; auto.
  - inversion H'.
  - inversion H'.
Qed.

End Histories.

(** C5.  Whenever a call that a route handler makes to the SDK, the
    construction of the handle included, is rejected with an error whose
    message is the text [m], it is the last call of the handler, and the
    handler returns normally: a response of status 500 whose envelope has
    [success] false and carries [m] (in [message] for the POI list, in
    [error] for the other routes).  The error does not escape the
    handler. *)
Theorem handler_reports_errors (sdk : Sdk) (r : Request) (w w' : World)
    (result : Completion Response) (c : SdkCall) (later during : list SdkCall)
    (e : JsVal) (m : string) :
  GET sdk r w = (result, w') ->
  calls w' = (later ++ c :: during ++ calls w)%list ->
  sdk (during ++ calls w)%list c = Reject e ->
  get_prop e "message" = Normal (JStr m) ->
  later = [] /\
  exists resp,
    result = Normal resp /\
    status resp = 500 /\
    resp = json_status (failure_envelope r (JStr m)) 500 /\
    field "success" (body resp) = Some (JBool false) /\
    (field "error" (body resp) = Some (JStr m)
     \/ field "message" (body resp) = Some (JStr m)).
Proof.
  intros E Hcalls Hrej Hmsg.
  assert (Hdone : forall w0, recover r e w0 = (result, w0) ->
            exists resp, result = Normal resp /\ status resp = 500 /\
              resp = json_status (failure_envelope r (JStr m)) 500 /\
              field "success" (body resp) = Some (JBool false) /\
              (field "error" (body resp) = Some (JStr m)
               \/ field "message" (body resp) = Some (JStr m))).
  { intros w0 Hr. rewrite (recover_message r e (JStr m) w0 Hmsg) in Hr.
    inversion Hr; subst. eexists. split; [reflexivity|]. split; [reflexivity|].
    split; [reflexivity|]. destruct r; simpl; auto. }
  apply GET_outcome in E.
  destruct E as [Hv|h w1 x Hv Hg Hn Hs|h w1 e' res Hv Hg Hn Hs Hr|h w1 res Hv Hg Hn Hr
                 |e' w1 res Hv Hg Hr].
  - exfalso. exact (no_call_split _ _ _ _ Hcalls).
  - exfalso.
    destruct (getMapInstance_cases sdk w)
      as [[Ht Ec]|[[_ (v & Hres & Ec)]|[_ (e0 & Hrej0 & Ec)]]];
      rewrite Ec in Hg; inversion Hg; subst; simpl in Hcalls, Hs.
    + apply one_call_split in Hcalls. destruct Hcalls as (-> & -> & ->).
      simpl in Hrej. congruence.
    + apply two_calls_split in Hcalls.
      destruct Hcalls as [(-> & -> & ->)|(-> & -> & ->)]; simpl in Hrej; congruence.
  - destruct (getMapInstance_cases sdk w)
      as [[Ht Ec]|[[_ (v & Hres & Ec)]|[_ (e0 & Hrej0 & Ec)]]];
      rewrite Ec in Hg; inversion Hg; subst; simpl in Hcalls, Hs.
    + apply one_call_split in Hcalls. destruct Hcalls as (-> & -> & ->).
      simpl in Hrej. assert (e' = e) by congruence. subst e'. eauto.
    + apply two_calls_split in Hcalls.
      destruct Hcalls as [(-> & -> & ->)|(-> & -> & ->)]; simpl in Hrej.
      * assert (e' = e) by congruence. subst e'. eauto.
      * congruence.
  - exfalso.
    destruct (getMapInstance_cases sdk w)
      as [[Ht Ec]|[[_ (v & Hres & Ec)]|[_ (e0 & Hrej0 & Ec)]]];
      rewrite Ec in Hg; inversion Hg; subst; simpl in Hcalls.
    + apply truthy_not_nullish in Ht. congruence.
    + apply one_call_split in Hcalls. destruct Hcalls as (-> & -> & ->).
      simpl in Hrej. congruence.
  - destruct (getMapInstance_cases sdk w)
      as [[Ht Ec]|[[_ (v & Hres & Ec)]|[_ (e0 & Hrej0 & Ec)]]];
      rewrite Ec in Hg; inversion Hg; subst; simpl in Hcalls.
    apply one_call_split in Hcalls. destruct Hcalls as (-> & -> & ->).
    simpl in Hrej. assert (e' = e) by congruence. subst e'. eauto.
Qed.

Lemma handler_reports_errors_witness :
  @nil SdkCall = [] /\
  exists resp,
    fst (GET Samples.sdk_down ListPois Samples.process) = Normal resp /\
    status resp = 500 /\
    resp = json_status (failure_envelope ListPois (JStr "backend unreachable")) 500 /\
    field "success" (body resp) = Some (JBool false) /\
    (field "error" (body resp) = Some (JStr "backend unreachable")
     \/ field "message" (body resp) = Some (JStr "backend unreachable")).
Proof.
  exact (handler_reports_errors Samples.sdk_down ListPois Samples.process
           (snd (GET Samples.sdk_down ListPois Samples.process))
           (fst (GET Samples.sdk_down ListPois Samples.process))
           (NewMap (config (env Samples.process))) [] [] Samples.unreachable
           "backend unreachable" eq_refl eq_refl eq_refl eq_refl).
Defined.

(** A rejection with [null] carries no message: reading [error.message] in
    the catch clause throws, and that TypeError leaves the handler. *)
Lemma null_rejection_has_no_message :
  fst (GET Samples.sdk_rejecting_null VenueData Samples.process)
  = Throw (read_of_nullish JNull "message").
Proof. reflexivity. Qed.

(** ** Validation *)

(** C6.  For every path id that does not parse as a base-10 integer, the
    POI-detail route answers 400 with the envelope
    [{success: false, error: "Invalid POI ID - must be a number"}] and leaves
    the world as it is: no call is made to the SDK. *)
Theorem poi_rejects_unparseable_id (sdk : Sdk) (id : string) (w : World) :
  ~ parseable id ->
  GET_poi sdk id w
  = (Normal {| status := 400;
               body := JObj [("success", JBool false);
                             ("error", JStr "Invalid POI ID - must be a number")] |},
     w).
Proof.
  intros Hnot. apply parseInt10_NaN_iff in Hnot.
  unfold GET_poi, try_catch. rewrite Hnot. reflexivity.
Qed.

Lemma poi_rejects_unparseable_id_witness :
  GET_poi Samples.sdk_up "abc" Samples.process = (Normal invalid_id, Samples.process) /\
  GET_poi Samples.sdk_up "" Samples.process = (Normal invalid_id, Samples.process) /\
  GET_poi Samples.sdk_up "-.5" Samples.process = (Normal invalid_id, Samples.process).
Proof.
  split; [|split];
    apply poi_rejects_unparseable_id; apply parseInt10_NaN_iff; reflexivity.
Defined.

(** C9.  For every path id that starts, after white space and a sign, with
    decimal digits, whatever follows them ("3.7", "12abc"), the POI-detail
    route does not answer 400: [parseInt] gives the Number of the sign and
    the digits (the integer itself below 2^53), and once the handle is
    obtained the handler calls [getPOIDetails] with that Number. *)
Theorem poi_accepts_integer_prefix (sdk : Sdk) (id : string) (negative : bool)
    (digits : string) (w : World) :
  integer_prefix id negative digits ->
  let n := to_number negative (digits_value 0 digits) in
  parseInt10 id = n /\
  (0 < digits_value 0 digits < 2 ^ 53 ->
   n = Int (if negative then - digits_value 0 digits else digits_value 0 digits)) /\
  (forall resp, fst (GET_poi sdk id w) = Normal resp -> status resp <> 400) /\
  (forall h w1, getMapInstance sdk w = (Normal h, w1) -> nullish h = false ->
     calls (snd (GET_poi sdk id w)) = GetPOIDetails h n :: calls w1).
Proof.
  intros Hp n.
  pose proof (parseInt10_prefix id negative digits Hp) as Hn. fold n in Hn.
  assert (Hvalid : valid (PoiDetail id) = true).
  { simpl. rewrite Hn. unfold n. 
    destruct (to_number negative (digits_value 0 digits)) eqn:E; try reflexivity.
    exfalso. exact (to_number_not_NaN _ _ E). }
  split; [exact Hn|].
  split; [apply to_number_exact|].
  change (GET_poi sdk id w) with (GET sdk (PoiDetail id) w).
  destruct (GET sdk (PoiDetail id) w) as [result w'] eqn:E.
  apply GET_outcome in E. simpl.
  split.
  - intros resp ->.
    inversion E; subst; try congruence; try discriminate;
      match goal with
      | H : recover _ ?e ?w0 = _ |- _ =>
          destruct (recover_cases (PoiDetail id) e w0) as [(m & _ & Hm)|(_ & t & Ht)];
          rewrite H in *; [inversion Hm; discriminate | discriminate]
      end.
  - intros h w1 Hg Hnull.
    inversion E; subst; try congruence;
      match goal with
      | H : getMapInstance sdk w = _ |- _ => rewrite Hg in H; inversion H; subst
      end; simpl; congruence.
Qed.

Lemma poi_accepts_integer_prefix_witness :
  parseInt10 "3.7" = Int 3 /\
  parseInt10 "12abc" = Int 12 /\
  calls (snd (GET_poi Samples.sdk_up "3.7" Samples.process))
  = [GetPOIDetails Samples.handle (Int 3); NewMap (config (env Samples.process))] /\
  calls (snd (GET_poi Samples.sdk_up "12abc" Samples.process))
  = [GetPOIDetails Samples.handle (Int 12); NewMap (config (env Samples.process))].
Proof.
  assert (H3 : integer_prefix "3.7" false "3").
  { exists "", "", ".7". repeat split; auto; discriminate. }
  assert (H12 : integer_prefix "12abc" false "12").
  { exists "", "", "abc". repeat split; auto; discriminate. }
  destruct (poi_accepts_integer_prefix Samples.sdk_up "3.7" false "3" Samples.process H3)
    as (A1 & _ & _ & A2).
  destruct (poi_accepts_integer_prefix Samples.sdk_up "12abc" false "12" Samples.process H12)
    as (B1 & _ & _ & B2).
  split; [exact A1|]. split; [exact B1|].
  split; [exact (A2 Samples.handle _ eq_refl eq_refl)|].
  exact (B2 Samples.handle _ eq_refl eq_refl).
Defined.

Section Search.

Variable sdk : Sdk.

(** A call of [getMapInstance] only adds calls to the history. *)
Lemma getMapInstance_history (w w1 : World) (res : Completion JsVal) :
  getMapInstance sdk w = (res, w1) ->
  calls w1 = calls w \/ calls w1 = NewMap (config (env w)) :: calls w.
Proof.
  intros E.
  destruct (getMapInstance_cases sdk w) as [[_ Ec]|[[_ (v & _ & Ec)]|[_ (e & _ & Ec)]]];
    rewrite Ec in E; inversion E; subst; auto.
Qed.

(** A handle that is [null] or [undefined] was just constructed. *)
Lemma nullish_handle_history (w w1 : World) (h : JsVal) :
  getMapInstance sdk w = (Normal h, w1) -> nullish h = true ->
  calls w1 = NewMap (config (env w)) :: calls w.
Proof.
  intros E Hn.
  destruct (getMapInstance_cases sdk w) as [[Ht Ec]|[[_ (v & _ & Ec)]|[_ (e & _ & Ec)]]];
    rewrite Ec in E; inversion E; subst; auto.
  apply truthy_not_nullish in Ht. congruence.
Qed.



End Search.



(** C8.  Every success envelope returned by a list route (POI list,
    search, structure list) is made from what the SDK resolved with: [data]
    is that result itself when it is an array, the values of its properties
    when it is an object and the empty array otherwise, [count] is the
    number of elements of [data], and the search route adds [query], the
    request's [q].  So a backend result of three items gives [count] 3, and
    an empty mapping for the query ["cafe"] gives [data] [[]], [count] 0 and
    [query] ["cafe"]. *)
Theorem list_envelope_count (sdk : Sdk) (r : Request) (w : World) :
  is_list_route r = true ->
  (forall h w1 raw,
     valid r = true ->
     getMapInstance sdk w = (Normal h, w1) ->
     nullish h = false ->
     sdk (calls w1) (capability r h) = Resolve raw ->
     exists items,
       GET sdk r w
       = (Normal {| status := 200;
                    body := JObj ([("success", JBool true);
                                   ("data", JArr items);
                                   ("count", JNum (Int (Z.of_nat (List.length items))))]
                                  ++ match r with
                                     | SearchFor (Some q) => [("query", JStr q)]
                                     | _ => []
                                     end)%list |},
          record (capability r h) w1) /\
       (forall elems, raw = JArr elems -> items = elems) /\
       (forall props, raw = JObj props ->
          items = map snd (own_properties props) /\
          List.length items = List.length props) /\
       ((forall elems, raw <> JArr elems) -> (forall props, raw <> JObj props) ->
        items = [])) /\
  (forall resp w',
     GET sdk r w = (Normal resp, w') ->
     field "success" (body resp) = Some (JBool true) ->
     exists h w1 raw items,
       getMapInstance sdk w = (Normal h, w1) /\
       sdk (calls w1) (capability r h) = Resolve raw /\
       normalize raw = JArr items /\
       field "data" (body resp) = Some (JArr items) /\
       field "count" (body resp) = Some (JNum (Int (Z.of_nat (List.length items)))) /\
       (forall q, r = SearchFor q ->
          exists s, q = Some s /\ field "query" (body resp) = Some (JStr s))).
Proof.
  intros Hlist. split.
  - intros h w1 raw Hv Hg Hn Hs.
    destruct (normalize_is_array raw) as [items Hitems].
    exists items. split; [|split; [|split]].
    + destruct (GET sdk r w) as [result w'] eqn:E. apply GET_outcome in E.
      destruct E as [Hv'|h' w1' x' _ Hg' Hn' Hs'|h' w1' e' res _ Hg' Hn' Hs' Hr
                     |h' w1' res _ Hg' Hn' Hr|e' w1' res _ Hg' Hr];
        try congruence; rewrite Hg in Hg'; inversion Hg'; subst; try congruence.
      assert (x' = raw) by congruence. subst x'.
      destruct r as [| |[q|]| |id]; try discriminate;
        simpl; unfold list_envelope, search_envelope; rewrite Hitems; reflexivity.
    + intros elems ->. simpl in Hitems. congruence.
    + intros props ->. simpl in Hitems. inversion Hitems; subst items.
      split; [reflexivity|].
      rewrite length_map. apply Permutation_length, own_properties_perm.
    + intros Harr Hobj.
      destruct raw as [| |b|n|str|elems|props|n1 n2 n3]; simpl in Hitems;
        solve [ congruence
              | exfalso; exact (Harr elems eq_refl)
              | exfalso; exact (Hobj props eq_refl) ].
  - intros resp w' E Hsuccess. apply GET_outcome in E.
    assert (Hrec : forall e w0 w1, recover r e w0 = (Normal resp, w1) -> False).
    { intros e w0 w1 Hr.
      destruct (recover_cases r e w0) as [(m & _ & Hm)|(_ & t & Ht)]; rewrite Hr in *;
        [|discriminate].
      inversion Hm; subst. destruct r; simpl in Hsuccess; discriminate. }
    remember (Normal resp) as result eqn:Hres.
    destruct E as [Hv|h w1 x Hv Hg Hn Hs|h w1 e' res Hv Hg Hn Hs Hr|h w1 res Hv Hg Hn Hr
                   |e' w1 res Hv Hg Hr]; subst; try (exfalso; eauto; fail).
    + inversion Hres; subst resp. destruct r; simpl in Hsuccess; discriminate.
    + inversion Hres; subst resp.
      destruct (normalize_is_array x) as [items Hitems].
      exists h, w1, x, items.
      split; [exact Hg|]. split; [exact Hs|]. split; [exact Hitems|].
      destruct r as [| |q| |id]; try discriminate; simpl; rewrite Hitems; simpl;
        (split; [reflexivity|]); (split; [reflexivity|]); intros q' Hq; try discriminate.
      inversion Hq; subst q'. destruct q as [s|]; [eauto | discriminate].
Qed.

Lemma list_envelope_count_witness :
  GET Samples.sdk_up ListPois Samples.process
  = (Normal {| status := 200;
               body := JObj [("success", JBool true);
                             ("data", JArr [Samples.poi 1; Samples.poi 2; Samples.poi 3]);
                             ("count", JNum (Int 3))] |},
     record (GetAllPOIs Samples.handle) (constructed Samples.handle Samples.process)) /\
  GET Samples.sdk_up (SearchFor (Some "cafe")) Samples.process
  = (Normal {| status := 200;
               body := JObj [("success", JBool true);
                             ("data", JArr []);
                             ("count", JNum (Int 0));
                             ("query", JStr "cafe")] |},
     record (Search Samples.handle "cafe") (constructed Samples.handle Samples.process)).
Proof.
  split.
  - destruct (list_envelope_count Samples.sdk_up ListPois Samples.process eq_refl)
      as [Hmade _].
    destruct (Hmade Samples.handle (constructed Samples.handle Samples.process)
                (JArr [Samples.poi 1; Samples.poi 2; Samples.poi 3])
                eq_refl eq_refl eq_refl eq_refl) as (items & Hget & Harray & _).
    rewrite (Harray _ eq_refl) in Hget. exact Hget.
  - destruct (list_envelope_count Samples.sdk_up (SearchFor (Some "cafe")) Samples.process
                eq_refl) as [Hmade _].
    destruct (Hmade Samples.handle (constructed Samples.handle Samples.process)
                (JObj []) eq_refl eq_refl eq_refl eq_refl) as (items & Hget & _ & Hobject & _).
    destruct (Hobject [] eq_refl) as [Hitems _].
    rewrite Hitems in Hget. exact Hget.
Defined.

(** [GET /api/pois] when the backend has three items. *)
Example pois_three_items :
  fst (GET Samples.sdk_up ListPois Samples.process)
  = Normal {| status := 200;
              body := JObj [("success", JBool true);
                            ("data", JArr [Samples.poi 1; Samples.poi 2; Samples.poi 3]);
                            ("count", JNum (Int 3))] |}.
Proof. reflexivity. Qed.

(** [GET /api/search?q=cafe] when the backend returns an empty mapping. *)
Example search_cafe_empty :
  fst (GET Samples.sdk_up (SearchFor (Some "cafe")) Samples.process)
  = Normal {| status := 200;
              body := JObj [("success", JBool true);
                            ("data", JArr []);
                            ("count", JNum (Int 0));
                            ("query", JStr "cafe")] |}.
Proof. reflexivity. Qed.

(** Construction fails on the first request and succeeds on the second. *)
Example construction_retried :
  let first := GET Samples.sdk_recovering ListPois Samples.process in
  let second := GET Samples.sdk_recovering ListPois (snd first) in
  fst first
  = Normal {| status := 500;
              body := JObj [("success", JBool false);
                            ("error", JStr "Failed to fetch POIs");
                            ("message", JStr "backend unreachable")] |} /\
  fst second
  = Normal {| status := 200;
              body := JObj [("success", JBool true);
                            ("data", JArr []);
                            ("count", JNum (Int 0))] |}.
Proof. split; reflexivity. Qed.

(** ** The handlers and the SDK *)

Section CallsOfAHandler.

Variable sdk : Sdk.

Lemma recover_nullish (r : Request) (e : JsVal) (w : World) :
  nullish e = true ->
  recover r e w = (Throw (read_of_nullish e (first_read r)), w).
Proof. destruct e; try discriminate; destruct r; reflexivity. Qed.

Lemma recover_throws (r : Request) (e t : JsVal) (w w' : World) :
  recover r e w = (Throw t, w') ->
  nullish e = true /\ t = read_of_nullish e (first_read r).
Proof.
  intros H.
  destruct (recover_cases r e w) as [(m & _ & E)|(Hn & _)].
  - rewrite E in H. discriminate.
  - rewrite (recover_nullish r e w Hn) in H. inversion H. auto.
Qed.

End CallsOfAHandler.

(** The calls of one run of a handler. *)
Lemma GET_calls (sdk : Sdk) (r : Request) (w w' : World)
    (result : Completion Response) :
  GET sdk r w = (result, w') ->
  (valid r = false /\ w' = w) \/
  (valid r = true /\
   (calls w' = NewMap (config (env w)) :: calls w \/
    exists h, nullish h = false /\
      (calls w' = capability r h :: calls w \/
       calls w' = capability r h :: NewMap (config (env w)) :: calls w))).
Proof.
  intros E. apply GET_outcome in E.
  destruct E as [Hv|h w1 x Hv Hg Hn Hs|h w1 e' res Hv Hg Hn Hs Hr|h w1 res Hv Hg Hn Hr
                 |e' w1 res Hv Hg Hr]; [left; auto | right; split; [exact Hv|] ..].
  - right. exists h. split; [exact Hn|].
    destruct (getMapInstance_history sdk _ _ _ Hg) as [H|H]; simpl; rewrite H; auto.
  - right. exists h. split; [exact Hn|].
    destruct (getMapInstance_history sdk _ _ _ Hg) as [H|H]; simpl; rewrite H; auto.
  - left. exact (nullish_handle_history sdk _ _ _ Hg Hn).
  - left.
    destruct (getMapInstance_cases sdk w) as [[_ Ec]|[[_ (v & _ & Ec)]|[_ (e & _ & Ec)]]];
      rewrite Ec in Hg; inversion Hg; subst. reflexivity.
Qed.

(** X1.  Every run of a handler makes at most one construction and then at most
    one call of its capability, on a handle that is neither [null] nor
    [undefined]; nothing is called twice.  A request that fails validation
    changes nothing. *)
Theorem handler_call_budget (sdk : Sdk) (r : Request) (w w' : World)
    (result : Completion Response) :
  GET sdk r w = (result, w') ->
  (valid r = false /\ w' = w) \/
  (valid r = true /\
   (calls w' = NewMap (config (env w)) :: calls w \/
    exists h, nullish h = false /\
      (calls w' = capability r h :: calls w \/
       calls w' = capability r h :: NewMap (config (env w)) :: calls w))).
Proof. exact (GET_calls sdk r w w' result). Qed.

Lemma handler_call_budget_witness :
  let w' := snd (GET Samples.sdk_up VenueData Samples.process) in
  (valid VenueData = false /\ w' = Samples.process) \/
  (valid VenueData = true /\
   (calls w' = NewMap (config (env Samples.process)) :: calls Samples.process \/
    exists h, nullish h = false /\
      (calls w' = capability VenueData h :: calls Samples.process \/
       calls w' = capability VenueData h :: NewMap (config (env Samples.process))
                    :: calls Samples.process))).
Proof.
  exact (handler_call_budget Samples.sdk_up VenueData Samples.process
           (snd (GET Samples.sdk_up VenueData Samples.process))
           (fst (GET Samples.sdk_up VenueData Samples.process)) eq_refl).
Defined.

(** X2.  A response is a 200 with [success] true, a 400 with [success] false for
    a request that fails validation (and then the world is untouched), or a
    500 with [success] false; no other status is ever answered, and the
    routes without input never answer 400. *)
Theorem handler_status (sdk : Sdk) (r : Request) (w w' : World) (resp : Response) :
  GET sdk r w = (Normal resp, w') ->
  ((status resp = 200 /\ field "success" (body resp) = Some (JBool true) /\ valid r = true)
   \/ (status resp = 400 /\ field "success" (body resp) = Some (JBool false)
       /\ valid r = false /\ w' = w)
   \/ (status resp = 500 /\ field "success" (body resp) = Some (JBool false)
       /\ valid r = true)) /\
  (r = ListPois \/ r = VenueData \/ r = ListStructures -> status resp <> 400).
Proof.
  intros E. apply GET_outcome in E.
  assert (Hrec : forall e w0 w1, recover r e w0 = (Normal resp, w1) ->
            status resp = 500 /\ field "success" (body resp) = Some (JBool false)).
  { intros e w0 w1 Hr.
    destruct (recover_cases r e w0) as [(m & _ & Hm)|(_ & t & Ht)]; rewrite Hr in *;
      [|discriminate].
    inversion Hm; subst. destruct r; split; reflexivity. }
  assert (Hmain :
    (status resp = 200 /\ field "success" (body resp) = Some (JBool true) /\ valid r = true)
    \/ (status resp = 400 /\ field "success" (body resp) = Some (JBool false)
        /\ valid r = false /\ w' = w)
    \/ (status resp = 500 /\ field "success" (body resp) = Some (JBool false)
        /\ valid r = true)).
  { remember (Normal resp) as result eqn:Hres.
    destruct E as [Hv|h w1 x Hv Hg Hn Hs|h w1 e' res Hv Hg Hn Hs Hr|h w1 res Hv Hg Hn Hr
                   |e' w1 res Hv Hg Hr]; subst.
    - inversion Hres; subst resp. right. left. destruct r; simpl; auto.
    - inversion Hres; subst resp. left. destruct r; simpl; auto.
    - right. right. destruct (Hrec _ _ _ Hr). auto.
    - right. right. destruct (Hrec _ _ _ Hr). auto.
    - right. right. destruct (Hrec _ _ _ Hr). auto. }
  split; [exact Hmain|].
  intros Hr H400.
  destruct Hmain as [(H & _)|[(_ & _ & Hv & _)|(H & _)]]; try (rewrite H in H400; discriminate).
  destruct Hr as [->|[->| ->]]; discriminate.
Qed.

Lemma handler_status_witness :
  status (json (list_envelope (JArr [Samples.poi 1; Samples.poi 2; Samples.poi 3]))) <> 400.
Proof.
  apply (handler_status Samples.sdk_up ListPois Samples.process
           (snd (GET Samples.sdk_up ListPois Samples.process))
           (json (list_envelope (JArr [Samples.poi 1; Samples.poi 2; Samples.poi 3])))).
  - reflexivity.
  - left. reflexivity.
Defined.

(** X3.  The venue and POI-detail routes answer 200 with the value the SDK
    resolved with, unchanged, whatever it is: [null] or [undefined] for an
    unknown POI is a success, not a 404. *)
Theorem object_routes_pass_through (sdk : Sdk) (r : Request) (w w1 : World)
    (h x : JsVal) :
  is_list_route r = false ->
  valid r = true ->
  getMapInstance sdk w = (Normal h, w1) ->
  nullish h = false ->
  sdk (calls w1) (capability r h) = Resolve x ->
  GET sdk r w
  = (Normal {| status := 200; body := JObj [("success", JBool true); ("data", x)] |},
     record (capability r h) w1).
Proof.
  intros Hl Hv Hg Hn Hs.
  destruct (GET sdk r w) as [result w'] eqn:E.
  apply GET_outcome in E.
  destruct E as [Hv'|h' w1' x' _ Hg' Hn' Hs'|h' w1' e' res _ Hg' Hn' Hs' Hr|h' w1' res _ Hg' Hn' Hr
                 |e' w1' res _ Hg' Hr];
    try congruence; rewrite Hg in Hg'; inversion Hg'; subst; try congruence.
  assert (x' = x) by congruence. subst x'.
  destruct r; try discriminate; reflexivity.
Qed.

Lemma object_routes_pass_through_witness :
  GET (fun _ c => match c with NewMap _ => Resolve Samples.handle | _ => Resolve JNull end)
      (PoiDetail "999") Samples.process
  = (Normal {| status := 200; body := JObj [("success", JBool true); ("data", JNull)] |},
     record (GetPOIDetails Samples.handle (Int 999))
       (constructed Samples.handle Samples.process)).
Proof.
  apply (object_routes_pass_through
           (fun _ c => match c with NewMap _ => Resolve Samples.handle | _ => Resolve JNull end)
           (PoiDetail "999") Samples.process
           (constructed Samples.handle Samples.process) Samples.handle JNull);
    reflexivity.
Defined.

(** X4.  A handler throws only when a call it made to the SDK was rejected with
    [null] or [undefined]: that call is its last one, and what leaves the
    handler is the TypeError of the first property read in the catch
    clause. *)
Theorem handler_throws_only_on_nullish_rejection (sdk : Sdk) (r : Request)
    (w w' : World) (t : JsVal) :
  GET sdk r w = (Throw t, w') ->
  exists c earlier e,
    calls w' = c :: earlier /\
    sdk earlier c = Reject e /\
    nullish e = true /\
    t = read_of_nullish e (first_read r).
Proof.
  intros E. apply GET_outcome in E.
  remember (Throw t) as result eqn:Hres.
  destruct E as [Hv|h w1 x Hv Hg Hn Hs|h w1 e' res Hv Hg Hn Hs Hr|h w1 res Hv Hg Hn Hr
                 |e' w1 res Hv Hg Hr]; try discriminate; subst res.
  - apply recover_throws in Hr. destruct Hr as [Hnull ->].
    exists (capability r h), (calls w1), e'. auto.
  - apply recover_throws in Hr. destruct Hr as [Hnull _].
    destruct h; discriminate.
  - apply recover_throws in Hr. destruct Hr as [Hnull ->].
    destruct (getMapInstance_cases sdk w) as [[_ Ec]|[[_ (v & _ & Ec)]|[_ (e0 & Hrej & Ec)]]];
      rewrite Ec in Hg; inversion Hg; subst.
    exists (NewMap (config (env w))), (calls w), e'. auto.
Qed.

Lemma handler_throws_only_on_nullish_rejection_witness :
  exists c earlier e,
    calls (snd (GET Samples.sdk_rejecting_null ListPois Samples.process)) = c :: earlier /\
    Samples.sdk_rejecting_null earlier c = Reject e /\
    nullish e = true /\
    read_of_nullish JNull "stack" = read_of_nullish e (first_read ListPois).
Proof.
  exact (handler_throws_only_on_nullish_rejection Samples.sdk_rejecting_null ListPois
           Samples.process _ _ eq_refl).
Defined.

(** ** Invariants of the process *)

Section ProcessInvariant.

Variable sdk : Sdk.
Variable e : ProcessEnv.

Lemma invariant_initial : process_invariant sdk e (initial e).
Proof.
  repeat split; simpl; auto. intros c [].
Qed.

Lemma invariant_record (c : SdkCall) (w : World) :
  is_NewMap c = false ->
  process_invariant sdk e w -> process_invariant sdk e (record c w).
Proof.
  intros Hc (Henv & Hcfg & Htc & Hprov).
  split; [exact Henv|]. split; [|split].
  - simpl. intros c' [<-|Hin] Hnew; [congruence | auto].
  - simpl. rewrite Htc. destruct c; try discriminate; reflexivity.
  - simpl. destruct Hprov as [Hnull|(later & earlier & Hcalls & Hres)]; [left; exact Hnull|].
    right. exists (c :: later), earlier. rewrite Hcalls. auto.
Qed.

Lemma invariant_getMapInstance (w w1 : World) (res : Completion JsVal) :
  process_invariant sdk e w ->
  getMapInstance sdk w = (res, w1) ->
  process_invariant sdk e w1.
Proof.
  intros (Henv & Hcfg & Htc & Hprov) Hg.
  destruct (getMapInstance_cases sdk w)
    as [[Ht Ec]|[[Ht (v & Hres & Ec)]|[Ht (e0 & Hrej & Ec)]]];
    rewrite Ec in Hg; inversion Hg; subst w1; clear Hg.
  - repeat split; auto.
  - rewrite Ht in Htc. rewrite Henv in Hres.
    split; [exact Henv|]. split; [|split].
    + simpl. rewrite Henv. intros c' [<-|Hin] Hnew; auto.
    + simpl. rewrite Henv, Hres, Htc. destruct (truthy v); reflexivity.
    + right. exists [], (calls w). simpl. rewrite Henv. auto.
  - rewrite Henv in Hrej.
    split; [exact Henv|]. split; [|split].
    + simpl. rewrite Henv. intros c' [<-|Hin] Hnew; auto.
    + simpl. rewrite Henv, Hrej. exact Htc.
    + simpl. destruct Hprov as [Hnull|(later & earlier & Hcalls & Hres)]; [left; exact Hnull|].
      right. exists (NewMap (config (env w)) :: later), earlier. rewrite Hcalls. auto.
Qed.

Lemma invariant_after (a : Activity) (w : World) :
  process_invariant sdk e w -> process_invariant sdk e (after sdk a w).
Proof.
  intros Hinv. destruct a as [r|]; simpl.
  - destruct (GET sdk r w) as [result w'] eqn:E. apply GET_outcome in E. simpl.
    destruct E as [Hv|h w1 x Hv Hg Hn Hs|h w1 e' res Hv Hg Hn Hs Hr|h w1 res Hv Hg Hn Hr
                   |e' w1 res Hv Hg Hr];
      eauto using invariant_getMapInstance, invariant_record, capability_not_NewMap.
  - destruct (getMapInstance sdk w) as [res w1] eqn:E. simpl.
    eauto using invariant_getMapInstance.
Qed.

Lemma invariant_after_all (acts : list Activity) (w : World) :
  process_invariant sdk e w -> process_invariant sdk e (after_all sdk acts w).
Proof.
  revert w. induction acts as [|a acts IH]; intros w Hinv; simpl; auto using invariant_after.
Qed.

(** One activity is at most one construction. *)
Lemma after_constructions (a : Activity) (w : World) :
  (constructions (after sdk a w) <= S (constructions w))%nat.
Proof.
  destruct a as [r|]; simpl.
  - destruct (GET sdk r w) as [result w'] eqn:E. simpl.
    destruct (GET_calls sdk r w w' result E)
      as [[_ ->]|[_ [H|(h & _ & [H|H])]]]; unfold constructions; rewrite ?H; simpl;
      rewrite ?capability_not_NewMap; simpl; lia.
  - destruct (getMapInstance sdk w) as [res w1] eqn:E. simpl.
    destruct (getMapInstance_history sdk _ _ _ E) as [H|H];
      unfold constructions; rewrite H; simpl; lia.
Qed.

Lemma after_all_constructions (acts : list Activity) (w : World) :
  (constructions (after_all sdk acts w) <= constructions w + List.length acts)%nat.
Proof.
  revert w. induction acts as [|a acts IH]; intros w; simpl; [lia|].
  pose proof (IH (after sdk a w)). pose proof (after_constructions a w). lia.
Qed.

End ProcessInvariant.

(** X5.  When the handler runs and the calls of [getMapInstance] of a
    process follow one another, each given the outcomes it awaits before the
    next starts, then however the SDK behaves at most one construction has
    resolved with a truthy handle; there is one exactly when the cache is
    filled, and what the cache holds is [null] or a value that a
    construction resolved with.  (Runs that overlap at
    [await Init.newMap] can each construct.) *)
Theorem one_truthy_construction_in_sequence (sdk : Sdk) (e : ProcessEnv)
    (acts : list Activity) :
  let p := Interleaved.run sdk (Interleaved.in_sequence acts) (Interleaved.boot e) in
  let w := Interleaved.world p in
  Interleaved.tasks p = [] /\
  (truthy_constructions sdk (calls w) <= 1)%nat /\
  (truthy (mapInstance w) = true <-> truthy_constructions sdk (calls w) = 1%nat) /\
  (mapInstance w = JNull \/
   exists later earlier,
     calls w = (later ++ NewMap (config e) :: earlier)%list /\
     sdk earlier (NewMap (config e)) = Resolve (mapInstance w)).
Proof.
  intros p w.
  destruct (in_sequence_is_after_all sdk acts (Interleaved.boot e) eq_refl) as [Hw Ht].
  fold p in Hw, Ht. fold w in Hw. simpl in Hw.
  destruct (invariant_after_all sdk e acts (initial e) (invariant_initial sdk e))
    as (_ & _ & Htc & Hprov).
  rewrite <- Hw in Htc, Hprov.
  split; [exact Ht|]. split; [|split; [|exact Hprov]].
  - rewrite Htc. destruct (truthy (mapInstance w)); lia.
  - rewrite Htc. destruct (truthy (mapInstance w)); split; congruence.
Qed.

(** X6.  In a process started with environment [e], every construction is given
    the account and venue identifiers of [e], and there are at most as many
    constructions as handler runs and calls of [getMapInstance]. *)
Theorem constructions_use_environment (sdk : Sdk) (e : ProcessEnv)
    (acts : list Activity) :
  let w := after_all sdk acts (initial e) in
  env w = e /\
  (forall c, In c (calls w) -> is_NewMap c = true ->
     c = NewMap (JObj [("accountId", env_value (ATRIUSMAPS_ACCOUNT_ID e));
                       ("venueId", env_value (ATRIUSMAPS_VENUE_ID e))])) /\
  (constructions w <= List.length acts)%nat.
Proof.
  intros w.
  destruct (invariant_after_all sdk e acts (initial e) (invariant_initial sdk e))
    as (Henv & Hcfg & _).
  split; [exact Henv|]. split; [exact Hcfg|].
  exact (after_all_constructions sdk acts (initial e)).
Qed.

(** ** Path ids *)

(** X7.  Path ids that agree on the sign and on the value of their leading
    digits are indistinguishable to the POI-detail route: white space, a
    plus sign, leading zeros and whatever follows the digits are ignored, so
    that [" +012"], ["12"] and ["12abc"] get the same response and make the
    same calls. *)
Theorem poi_ids_with_same_value (sdk : Sdk) (id1 id2 : string) (negative : bool)
    (digits1 digits2 : string) (w : World) :
  integer_prefix id1 negative digits1 ->
  integer_prefix id2 negative digits2 ->
  digits_value 0 digits1 = digits_value 0 digits2 ->
  GET_poi sdk id1 w = GET_poi sdk id2 w.
Proof.
  intros H1 H2 Hv.
  unfold GET_poi.
  rewrite (parseInt10_prefix id1 negative digits1 H1).
  rewrite (parseInt10_prefix id2 negative digits2 H2).
  rewrite Hv. reflexivity.
Qed.

Lemma poi_ids_with_same_value_witness :
  GET_poi Samples.sdk_up " +012" Samples.process
  = GET_poi Samples.sdk_up "12abc" Samples.process.
Proof.
  apply (poi_ids_with_same_value Samples.sdk_up " +012" "12abc" false "012" "12").
  - exists " ", "+", "". repeat split; auto; discriminate.
  - exists "", "", "abc". repeat split; auto; discriminate.
  - reflexivity.
Defined.

(** ** The client page *)

Section ClientPage.

Import Page.

Lemma get_prop_normal (v : JsVal) (name : string) (x : JsVal) :
  get_prop v name = Normal x -> nullish v = false.
Proof. destruct v; simpl; intros H; try reflexivity; discriminate. Qed.

Lemma get_prop_total (v : JsVal) (name : string) :
  nullish v = false -> exists x, get_prop v name = Normal x.
Proof. destruct v; simpl; intros H; try discriminate; eauto. Qed.

Lemma get_prop_nullish (v : JsVal) (name : string) :
  nullish v = true -> get_prop v name = Throw (read_of_nullish v name).
Proof. destruct v; simpl; intros H; try discriminate; reflexivity. Qed.

Lemma or_else_truthy (a b : JsVal) : truthy b = true -> truthy (or_else a b) = true.
Proof. unfold or_else. destruct (truthy a) eqn:E; auto. Qed.

Lemma failure_message_truthy (result : Fetched) :
  truthy (failure_message result) = true.
Proof.
  destruct result as [err|err|data]; try reflexivity.
  simpl. destruct (get_prop data "error"); [apply or_else_truthy|]; reflexivity.
Qed.

Lemma card_of_object (poi : JsVal) (index : nat) :
  nullish poi = false ->
  exists c, card poi index = Normal c /\ truthy (title c) = true.
Proof.
  intros Hn. unfold card.
  destruct (get_prop_total poi "name" Hn) as [name ->].
  destruct (get_prop_total poi "type" Hn) as [type ->].
  destruct (get_prop_total poi "description" Hn) as [description ->].
  destruct (get_prop_total poi "id" Hn) as [id ->].
  eexists. split; [reflexivity|]. simpl. apply or_else_truthy. reflexivity.
Qed.

Lemma card_of_nullish (poi : JsVal) (index : nat) :
  nullish poi = true -> card poi index = Throw (read_of_nullish poi "name").
Proof.
  intros Hn. unfold card. rewrite (get_prop_nullish poi "name" Hn). reflexivity.
Qed.

Lemma cards_of_objects (items : list JsVal) (index : nat) :
  Forall (fun poi => nullish poi = false) items ->
  exists cs, cards index items = Normal cs /\
             List.length cs = List.length items /\
             Forall (fun c => truthy (title c) = true) cs.
Proof.
  intros H. revert index.
  induction H as [|poi items Hpoi _ IH]; intros index; simpl.
  - exists []. auto.
  - destruct (card_of_object poi index Hpoi) as (c & -> & Hc).
    destruct (IH (S index)) as (cs & -> & Hlen & Hall).
    exists (c :: cs). simpl. auto.
Qed.

Lemma cards_with_nullish (items : list JsVal) (index : nat) :
  Exists (fun poi => nullish poi = true) items ->
  exists poi, In poi items /\ nullish poi = true /\
              cards index items = Throw (read_of_nullish poi "name").
Proof.
  intros H. revert index.
  induction H as [poi items Hpoi|poi items _ IH]; intros index; simpl.
  - exists poi. rewrite (card_of_nullish poi index Hpoi). auto.
  - destruct (nullish poi) eqn:Hn.
    + exists poi. rewrite (card_of_nullish poi index Hn). auto.
    + destruct (card_of_object poi index Hn) as (c & -> & _).
      destruct (IH (S index)) as (bad & Hin & Hbad & ->).
      exists bad. auto.
Qed.

End ClientPage.



(** X9.  Every other outcome of the fetch (the request or the parsing of the body
    fails, the body is [null], or its [success] is falsy) ends in the error
    view: the list in the state is kept as it was, loading is over, and the
    message is [data.error] when it is truthy, ["Failed to fetch POIs"] when
    it is not, and ["Network error: Failed to fetch POIs"] when there is no
    body to read. *)
Theorem page_after_failure (result : Page.Fetched) (s : Page.State) :
  Page.succeeded result = false ->
  Page.fetchPOIs result s
  = {| Page.pois := Page.pois s;
       Page.loading := false;
       Page.error := Page.failure_message result |} /\
  truthy (Page.failure_message result) = true /\
  Page.render (Page.fetchPOIs result s) = Normal (Page.Failed (Page.failure_message result)) /\
  (forall data e, result = Page.Body data -> get_prop data "error" = Normal e ->
     Page.failure_message result = if truthy e then e else JStr "Failed to fetch POIs") /\
  (forall data, result = Page.Body data -> nullish data = true ->
     Page.failure_message result = JStr "Network error: Failed to fetch POIs").
Proof.
  intros Hs.
  assert (Hstate : Page.fetchPOIs result s
                   = {| Page.pois := Page.pois s; Page.loading := false;
                        Page.error := Page.failure_message result |}).
  { destruct result as [err|err|data]; try reflexivity.
    unfold Page.fetchPOIs, Page.fetch_try, Page.failure_message. simpl in Hs.
    destruct (get_prop data "success") as [success|t] eqn:Hsucc.
    - rewrite Hs.
      destruct (get_prop_total data "error" (get_prop_normal _ _ _ Hsucc)) as [e ->].
      reflexivity.
    - destruct data; try discriminate; reflexivity. }
  split; [exact Hstate|].
  pose proof (failure_message_truthy result) as Ht.
  split; [exact Ht|].
  split.
  - rewrite Hstate. unfold Page.render. simpl. rewrite Ht. reflexivity.
  - split.
    + intros data e -> He. simpl. rewrite He. reflexivity.
    + intros data -> Hn. simpl. rewrite (get_prop_nullish data "error" Hn). reflexivity.
Qed.

Lemma page_after_failure_witness :
  Page.render (Page.fetchPOIs (Page.Body JNull) (Page.setPois [Samples.poi 1] Page.mounted))
  = Normal (Page.Failed (JStr "Network error: Failed to fetch POIs")) /\
  Page.pois (Page.fetchPOIs (Page.Body JNull) (Page.setPois [Samples.poi 1] Page.mounted))
  = [Samples.poi 1].
Proof.
  destruct (page_after_failure (Page.Body JNull)
              (Page.setPois [Samples.poi 1] Page.mounted) eq_refl) as (Hstate & _ & Hr & _).
  split; [exact Hr|]. rewrite Hstate. reflexivity.
Defined.

(** X10.  With loading over, no error and a list that is not empty, the page shows
    one card per item, in order, each with a truthy title, and the total is
    the length of the list, provided no item is [null] or [undefined]; when
    one is, rendering throws the TypeError of reading its [name], the first
    property read of an item. *)
Theorem page_lists_every_poi (s : Page.State) :
  Page.loading s = false ->
  truthy (Page.error s) = false ->
  Page.pois s <> [] ->
  (Forall (fun poi => nullish poi = false) (Page.pois s) ->
   exists shown,
     Page.render s = Normal (Page.Listing (List.length (Page.pois s)) shown) /\
     Page.cards 0 (Page.pois s) = Normal shown /\
     List.length shown = List.length (Page.pois s) /\
     Forall (fun c => truthy (Page.title c) = true) shown) /\
  (Exists (fun poi => nullish poi = true) (Page.pois s) ->
   exists poi, In poi (Page.pois s) /\ nullish poi = true /\
               Page.render s = Throw (read_of_nullish poi "name")).
Proof.
  intros Hl He Hne.
  assert (Hlen : (List.length (Page.pois s) =? 0)%nat = false).
  { destruct (Page.pois s); [congruence | reflexivity]. }
  unfold Page.render. rewrite Hl, He, Hlen.
  split.
  - intros Hall.
    destruct (cards_of_objects (Page.pois s) 0 Hall) as (cs & Hc & Hlen' & Htitles).
    exists cs. rewrite Hc. auto.
  - intros Hex.
    destruct (cards_with_nullish (Page.pois s) 0 Hex) as (poi & Hin & Hn & Hc).
    exists poi. rewrite Hc. auto.
Qed.

Lemma page_lists_every_poi_witness :
  (exists shown,
     Page.render {| Page.pois := [Samples.poi 1; JStr "kiosk"]; Page.loading := false;
                    Page.error := JNull |}
     = Normal (Page.Listing 2 shown) /\
     List.length shown = 2%nat) /\
  Page.render {| Page.pois := [Samples.poi 1; JNull]; Page.loading := false;
                 Page.error := JNull |}
  = Throw (read_of_nullish JNull "name").
Proof.
  split.
  - destruct (page_lists_every_poi
                {| Page.pois := [Samples.poi 1; JStr "kiosk"]; Page.loading := false;
                   Page.error := JNull |} eq_refl eq_refl) as [Hok _]; [discriminate|].
    destruct Hok as (shown & Hr & _ & Hlen & _); [repeat constructor|].
    exists shown. auto.
  - destruct (page_lists_every_poi
                {| Page.pois := [Samples.poi 1; JNull]; Page.loading := false;
                   Page.error := JNull |} eq_refl eq_refl) as [_ Hbad]; [discriminate|].
    reflexivity.
Defined.

(** ** The page and the POI-list route *)


